(** * Speaker assignment in [diarize_transcribe.ipynb]

    A shallow embedding of the notebook's own logic: the [HF_TOKEN] check of
    the configuration cell and the cell that combines Whisper's transcript
    segments with Pyannote's speaker turns and writes
    [Transcription/transcription_with_speakers.txt].

    Conventions of the embedding.
    - A Python [str] is a list of Unicode code points ([list N]).
    - A time stamp is a rational number ([Q]).  Every finite binary64 value
      is a rational, comparisons are exact on them, and [Q] has, like the
      Python numbers, several representations of one value ([0] and [0.0];
      [1#2] and [2#4]), so value equality is [Qeq].  The subtraction
      [overlap_end - overlap_start] is the binary64 one: the exact
      difference rounded to the nearest number with a 53-bit significand,
      ties to even ([float_sub]).  On finite binary64 operands that is the
      IEEE 754 result whenever it does not overflow: a difference below the
      normal range is a multiple of the least subnormal and so is exact.
      Infinities, NaN and the negative zero, which [Q] does not have, are
      outside the model; Whisper and Pyannote give times that are none of
      them.
    - The calls into Whisper, Pyannote and python-dotenv are inputs: the
      list [result['segments']], the list [diarization_list], and the
      function [load_dotenv] on the process environment. *)

From Stdlib Require Import QArith Qminmax Qabs Lia Lqa.
From Stdlib Require Import String Ascii.
From stdpp Require Import gmap list.

Local Open Scope Q_scope.

(** ** Python strings *)

Abbreviation str := (list N).

(** A string literal of the source: its characters as code points. *)
Definition lit (s : string) : str :=
  map N_of_ascii (list_ascii_of_string s).

(** [str.isspace] on one character: the code points CPython's
    [_PyUnicode_IsWhitespace] accepts. *)
Definition isspace (c : N) : bool :=
  ((9 <=? c) && (c <=? 13) || (28 <=? c) && (c <=? 32)
   || (c =? 133) || (c =? 160) || (c =? 5760)
   || (8192 <=? c) && (c <=? 8202)
   || (c =? 8232) || (c =? 8233) || (c =? 8239) || (c =? 8287)
   || (c =? 12288))%N.

Fixpoint lstrip (s : str) : str :=
  match s with
  | c :: s' => if isspace c then lstrip s' else s
  | [] => []
  end.

Definition rstrip (s : str) : str := rev (lstrip (rev s)).

(** [s.strip()] *)
Definition strip (s : str) : str := rstrip (lstrip s).

(** The line feed, ["\n"]. *)
Definition LF : N := 10%N.

(** The lines of a text file: the pieces between line feeds, a last piece
    without its line feed counting as a line when it is not empty. *)
Fixpoint file_lines (s : str) : list str :=
  match s with
  | [] => []
  | c :: s' =>
      if (c =? LF)%N then [] :: file_lines s'
      else match file_lines s' with
           | [] => [[c]]
           | l :: ls => (c :: l) :: ls
           end
  end.

(** ** Python numbers *)

(** [a > b] *)
Definition py_gt (a b : Q) : bool :=
  match a ?= b with Gt => true | _ => false end.

(** [a < b] *)
Definition py_lt (a b : Q) : bool := py_gt b a.

(** The builtin [max(a, b)]: the first argument is kept unless the second
    is strictly greater. *)
Definition py_max (a b : Q) : Q := if py_gt b a then b else a.

(** The builtin [min(a, b)]: the first argument is kept unless the second
    is strictly smaller. *)
Definition py_min (a b : Q) : Q := if py_lt b a then b else a.

(** The decimal digits of a natural number. *)
Fixpoint uint_str (d : Decimal.uint) : str :=
  match d with
  | Decimal.Nil => []
  | Decimal.D0 d => 48%N :: uint_str d
  | Decimal.D1 d => 49%N :: uint_str d
  | Decimal.D2 d => 50%N :: uint_str d
  | Decimal.D3 d => 51%N :: uint_str d
  | Decimal.D4 d => 52%N :: uint_str d
  | Decimal.D5 d => 53%N :: uint_str d
  | Decimal.D6 d => 54%N :: uint_str d
  | Decimal.D7 d => 55%N :: uint_str d
  | Decimal.D8 d => 56%N :: uint_str d
  | Decimal.D9 d => 57%N :: uint_str d
  end.

Definition decimal (n : Z) : str := uint_str (N.to_uint (Z.to_N n)).

(** The integer nearest to [n / d] for [0 <= n], a tie going to the even
    neighbour. *)
Definition round_half_even (n : Z) (d : positive) : Z :=
  let q := (n / Z.pos d)%Z in
  let r := (n mod Z.pos d)%Z in
  match (2 * r ?= Z.pos d)%Z with
  | Lt => q
  | Gt => (q + 1)%Z
  | Eq => if Z.even q then q else (q + 1)%Z
  end.

(** [2^e] for [0 <= e], and [1] below. *)
Definition up (e : Z) : Z := (2 ^ Z.max 0 e)%Z.

(** [2^-e] for [e <= 0], and [1] above: [up e / down e] is [2^e]. *)
Definition down (e : Z) : Z := (2 ^ Z.max 0 (- e))%Z.

(** The exponent [e] that puts [n / d], for [0 < n], in the binade
    [2^52 <= (n / d) / 2^e < 2^53]: the first guess, from the lengths of
    [n] and [d], is at most one too high. *)
Definition exponent53 (n : Z) (d : positive) : Z :=
  let e0 := (Z.log2 n - Z.log2 (Z.pos d) - 52)%Z in
  if (n * down e0 <? 2 ^ 52 * (Z.pos d * up e0))%Z then (e0 - 1)%Z else e0.

(** [(n / d) / 2^e] to the nearest integer, ties to even. *)
Definition significand (n : Z) (d : positive) (e : Z) : Z :=
  round_half_even (n * down e) (d * Z.to_pos (up e)).

(** The fraction [x] to the nearest number [m * 2^e] with [m] of 53 bits,
    ties to the even [m]. *)
Definition round53_fraction (x : Q) : Q :=
  let n := Z.abs (Qnum x) in
  if (n =? 0)%Z then 0
  else
    let e := exponent53 n (Qden x) in
    (Z.sgn (Qnum x) * significand n (Qden x) e * up e) # Z.to_pos (down e).

(** The value [x] rounded as binary64 rounds an exact result. *)
Definition round53 (x : Q) : Q := round53_fraction (Qred x).

(** [a - b] on floats. *)
Definition float_sub (a b : Q) : Q := round53 (a - b).

(** The float a decimal literal of Python denotes. *)
Definition float_literal (x : Q) : Q := Qred (round53 x).

(** The number of tenths [x] is rendered with, sign apart. *)
Definition tenths (x : Q) : Z :=
  round_half_even (Z.abs (Qnum x) * 10) (Qden x).

(** The format specification [:.1f]: the value rounded to one decimal
    place (correctly, ties to even), the sign kept when the value is
    negative.  (A negative zero, which is rendered [-0.0], is not a value
    of [Q].) *)
Definition format_1f (x : Q) : str :=
  (if (Qnum x <? 0)%Z then lit "-" else [])
    ++ decimal (tenths x / 10) ++ lit "." ++ decimal (tenths x mod 10).

(** ** The inputs *)

(** An item of [result['segments']]: the keys the notebook reads. *)
Record segment := {
  seg_start : Q;
  seg_end : Q;
  seg_text : str;
}.

(** An item of [diarization_list]: the triple [(turn, _, speaker)] that
    [itertracks(yield_label=True)] yields, [turn] having [start] and
    [end]. *)
Record track := {
  turn_start : Q;
  turn_end : Q;
  track_name : str;
  speaker : str;
}.

(** ** The interval overlap *)

(** The three assignments at the head of the inner loop's body. *)
Definition overlap (segment_start segment_end : Q) (turn : track) : Q :=
  let overlap_start := py_max segment_start (turn_start turn) in
  let overlap_end := py_min segment_end (turn_end turn) in
  py_max 0 (float_sub overlap_end overlap_start).

(** ** The notebook's state *)

(** What the cells read and change: the process environment, the files by
    path, the text printed so far, the models loaded so far, and the two
    globals the combine cell keeps across the iterations of its loops. *)
Record kernel := {
  environ : gmap str str;
  files : gmap str str;
  stdout : str;
  loaded : list str;
  max_overlap : Q;
  current_speaker : option str;
}.

Definition with_environ (e : gmap str str) (k : kernel) : kernel :=
  {| environ := e; files := files k; stdout := stdout k; loaded := loaded k;
     max_overlap := max_overlap k; current_speaker := current_speaker k |}.

Definition with_files (f : gmap str str) (k : kernel) : kernel :=
  {| environ := environ k; files := f; stdout := stdout k; loaded := loaded k;
     max_overlap := max_overlap k; current_speaker := current_speaker k |}.

Definition with_stdout (o : str) (k : kernel) : kernel :=
  {| environ := environ k; files := files k; stdout := o; loaded := loaded k;
     max_overlap := max_overlap k; current_speaker := current_speaker k |}.

Definition with_loaded (l : list str) (k : kernel) : kernel :=
  {| environ := environ k; files := files k; stdout := stdout k; loaded := l;
     max_overlap := max_overlap k; current_speaker := current_speaker k |}.

Definition with_max_overlap (m : Q) (k : kernel) : kernel :=
  {| environ := environ k; files := files k; stdout := stdout k;
     loaded := loaded k; max_overlap := m;
     current_speaker := current_speaker k |}.

Definition with_current_speaker (s : option str) (k : kernel) : kernel :=
  {| environ := environ k; files := files k; stdout := stdout k;
     loaded := loaded k; max_overlap := max_overlap k;
     current_speaker := s |}.

(** A kernel in which nothing has run. *)
Definition fresh_kernel : kernel :=
  {| environ := ∅; files := ∅; stdout := []; loaded := [];
     max_overlap := 0; current_speaker := None |}.

(** [print(s)] *)
Definition print (s : str) (k : kernel) : kernel :=
  with_stdout (stdout k ++ s ++ [LF]) k.

(** [open(path, 'w')]: the file is created or truncated. *)
Definition open_w (path : str) (k : kernel) : kernel :=
  with_files (<[path := []]> (files k)) k.

(** [f.write(s)] on the file opened at [path]. *)
Definition f_write (path s : str) (k : kernel) : kernel :=
  with_files (<[path := default [] (files k !! path) ++ s]> (files k)) k.

(** [str(v)] as an f-string renders a value that is a string or [None]. *)
Definition py_str (v : option str) : str :=
  match v with
  | None => lit "None"
  | Some s => s
  end.

(** ** The combine cell *)

(** [os.path.join("Transcription", "transcription_with_speakers.txt")] *)
Definition output_path : str :=
  lit "Transcription/transcription_with_speakers.txt".

(** The body of [for turn, _, speaker in diarization_list]. *)
Definition turn_body (segment_start segment_end : Q)
    (k : kernel) (item : track) : kernel :=
  let overlap := overlap segment_start segment_end item in
  if py_gt overlap (max_overlap k)
  then with_current_speaker (Some (speaker item)) (with_max_overlap overlap k)
  else k.

(** "Find the speaker with maximum overlap for this segment": the two
    initialisations and the inner loop. *)
Definition find_speaker (diarization_list : list track) (segment : segment)
    (k : kernel) : kernel :=
  let segment_start := seg_start segment in
  let segment_end := seg_end segment in
  let k := with_max_overlap 0 k in
  let k := with_current_speaker None k in
  fold_left (turn_body segment_start segment_end) diarization_list k.

(** The value of [line] for a segment and the speaker found for it. *)
Definition format_line (segment : segment) (who : option str) : str :=
  let start_time := format_1f (seg_start segment) ++ lit "s" in
  let end_time := format_1f (seg_end segment) ++ lit "s" in
  lit "[" ++ start_time ++ lit " -> " ++ end_time ++ lit "] "
    ++ py_str who ++ lit ": " ++ strip (seg_text segment) ++ [LF].

(** "Format and write the line". *)
Definition write_line (segment : segment) (k : kernel) : kernel :=
  let line := format_line segment (current_speaker k) in
  let k := print (strip line) k in
  f_write output_path line k.

(** The body of [for segment in result['segments']]. *)
Definition segment_body (diarization_list : list track)
    (k : kernel) (segment : segment) : kernel :=
  write_line segment (find_speaker diarization_list segment k).

(** The outer loop. *)
Definition combine_loop (segments : list segment)
    (diarization_list : list track) (k : kernel) : kernel :=
  fold_left (segment_body diarization_list) segments k.

(** The whole cell. *)
Definition combine (segments : list segment) (diarization_list : list track)
    (k : kernel) : kernel :=
  let k := print (lit "Combining transcription with speaker information...") k in
  let k := open_w output_path k in
  let k := combine_loop segments diarization_list k in
  print (LF :: lit "Transcription with speaker identification saved to '"
            ++ output_path ++ lit "'") k.

(** The speaker the loop leaves in [current_speaker] for a segment. *)
Definition assigned_speaker (diarization_list : list track)
    (segment : segment) : option str :=
  current_speaker (find_speaker diarization_list segment fresh_kernel).

(** The text the cell leaves in the output file. *)
Definition output_file (segments : list segment)
    (diarization_list : list track) (k : kernel) : option str :=
  files (combine segments diarization_list k) !! output_path.

(** ** The loops, one step at a time *)

(** Where the interpreter stands in the nested loops: at the head of the
    outer [for] with the segments still to visit, at the head of the inner
    [for] with the turns still to visit, or past the loops. *)
Inductive control :=
  | AtSegments (segments : list segment)
  | AtTurns (seg : segment) (turns : list track) (segments : list segment)
  | Finished.

(** One step: a [for] head either takes the next item and enters its body
    or, its list exhausted, falls through to what follows the loop. *)
Definition step (diarization_list : list track)
    (c : control * kernel) : option (control * kernel) :=
  match c with
  | (AtSegments [], k) => Some (Finished, k)
  | (AtSegments (segment :: segments), k) =>
      Some (AtTurns segment diarization_list segments,
            with_current_speaker None (with_max_overlap 0 k))
  | (AtTurns segment [] segments, k) =>
      Some (AtSegments segments, write_line segment k)
  | (AtTurns segment (item :: turns) segments, k) =>
      Some (AtTurns segment turns segments,
            turn_body (seg_start segment) (seg_end segment) k item)
  | (Finished, _) => None
  end.

(** At most [fuel] steps. *)
Fixpoint run (diarization_list : list track) (fuel : nat)
    (c : control * kernel) : control * kernel :=
  match fuel with
  | O => c
  | S fuel =>
      match step diarization_list c with
      | Some c' => run diarization_list fuel c'
      | None => c
      end
  end.

Definition finished (c : control * kernel) : bool :=
  match fst c with Finished => true | _ => false end.

(** The steps the loops take. *)
Definition steps_needed (segments : list segment)
    (diarization_list : list track) : nat :=
  (length segments * (length diarization_list + 2) + 1)%nat.

(** ** The configuration cell *)

Inductive exn := ValueError (msg : str).

(** A cell either completes with a value or raises; the kernel lives on
    either way. *)
Definition cell (A : Type) : Type := kernel -> (exn + A) * kernel.

Definition raise {A} (e : exn) : cell A := fun k => (inl e, k).

#[global] Instance cell_ret : MRet cell := fun A a k => (inr a, k).

#[global] Instance cell_bind : MBind cell := fun A B f m k =>
  match m k with
  | (inr a, k') => f a k'
  | (inl e, k') => (inl e, k')
  end.

Definition effect (f : kernel -> kernel) : cell unit := fun k => (inr tt, f k).

(** [os.getenv(key)] *)
Definition os_getenv (key : str) : cell (option str) :=
  fun k => (inr (environ k !! key), k).

(** Truth value of a string or [None]. *)
Definition truthy (v : option str) : bool :=
  match v with
  | Some (_ :: _) => true
  | _ => false
  end.

(** A model is loaded. *)
Definition load_model (name : str) : cell unit :=
  effect (fun k => with_loaded (loaded k ++ [name]) k).

Section Configuration.

(** python-dotenv's [load_dotenv()]: from the files and the environment
    to the environment it leaves. *)
Variable load_dotenv : gmap str str -> gmap str str -> gmap str str.

(** The environment [os.getenv] reads in the configuration cell. *)
Definition environment_read (k : kernel) : gmap str str :=
  load_dotenv (files k) (environ k).

Definition configuration : cell (option str) :=
  effect (fun k => with_environ (environment_read k) k) ;;
  HF_TOKEN ← os_getenv (lit "HF_TOKEN") ;
  if negb (truthy HF_TOKEN)
  then raise (ValueError (lit
         "HF_TOKEN not found in environment variables. Please set it up first."))
  else mret HF_TOKEN.

(** The model initialisation cell: Whisper, then the Pyannote pipeline. *)
Definition model_initialization (HF_TOKEN : option str) : cell unit :=
  effect (print (lit "Loading models..."))  ;;
  load_model (lit "large-v3")  ;;
  load_model (lit "pyannote/speaker-diarization-3.1")  ;;
  effect (print (lit "Models loaded successfully!")).

(** The two cells run in the notebook's order; a cell that raises stops
    the run. *)
Definition setup : cell unit :=
  HF_TOKEN ← configuration ;
  model_initialization HF_TOKEN.

End Configuration.

(** ** Notions the statements use *)

(** [x] lies in the closed interval from [lo] to [hi]. *)
Definition inside (lo hi x : Q) : Prop := lo <= x /\ x <= hi.

(** [x] lies in both intervals. *)
Definition common (s1 e1 s2 e2 x : Q) : Prop :=
  inside s1 e1 x /\ inside s2 e2 x.

(** [len] is the length of the intersection of the two intervals: the
    intersection is an interval from [lo] to [hi] and [len] is [hi - lo],
    or it is empty and [len] is zero. *)
Definition intersection_length (s1 e1 s2 e2 len : Q) : Prop :=
  (exists lo hi, lo <= hi
     /\ (forall x, common s1 e1 s2 e2 x <-> inside lo hi x)
     /\ len == hi - lo)
  \/ ((forall x, ~ common s1 e1 s2 e2 x) /\ len == 0).

(** The time the segment and the turn share, in exact arithmetic. *)
Definition exact_overlap (s1 e1 : Q) (t : track) : Q :=
  Qmax 0 (Qmin e1 (turn_end t) - Qmax s1 (turn_start t)).

(** The turn whose interval is the segment's: with the turn's interval as
    the segment, the two intervals have exchanged roles. *)
Definition swap_roles (s1 e1 : Q) (t : track) : track :=
  {| turn_start := s1; turn_end := e1;
     track_name := track_name t; speaker := speaker t |}.

(** [who] is the label of a turn of the list whose overlap with the segment
    no turn of the list exceeds. *)
Definition assigns_maximal_overlap_speaker (turns : list track)
    (seg : segment) (who : option str) : Prop :=
  exists t, t ∈ turns /\ who = Some (speaker t)
    /\ Forall (fun t' => overlap (seg_start seg) (seg_end seg) t'
                         <= overlap (seg_start seg) (seg_end seg) t) turns.

(** The turn ends where the segment starts, or starts where it ends. *)
Definition touches (seg : segment) (t : track) : Prop :=
  turn_end t == seg_start seg \/ turn_start t == seg_end seg.

(** What the cell writes for a segment. *)
Definition line_for (turns : list track) (seg : segment) : str :=
  format_line seg (assigned_speaker turns seg).

(** What the cell prints for a segment. *)
Definition printed_line (turns : list track) (seg : segment) : str :=
  strip (line_for turns seg) ++ [LF].

(** The line of a segment as the specification words it:
    [[<start>s -> <end>s] <speaker>: <text>]. *)
Definition spec_line (turns : list track) (seg : segment) : str :=
  lit "[" ++ format_1f (seg_start seg) ++ lit "s -> "
    ++ format_1f (seg_end seg) ++ lit "s] "
    ++ py_str (assigned_speaker turns seg) ++ lit ": "
    ++ strip (seg_text seg).

(** The steps left before the loops are done. *)
Definition remaining (diarization_list : list track)
    (c : control * kernel) : nat :=
  match fst c with
  | AtSegments segments => steps_needed segments diarization_list
  | AtTurns _ turns segments =>
      (length turns + 1 + steps_needed segments diarization_list)%nat
  | Finished => 0%nat
  end.

(** The kernel the loops, read as folds, end in when resumed from [c]. *)
Definition outcome (diarization_list : list track)
    (c : control * kernel) : kernel :=
  match c with
  | (AtSegments segments, k) => combine_loop segments diarization_list k
  | (AtTurns seg turns segments, k) =>
      combine_loop segments diarization_list
        (write_line seg
           (fold_left (turn_body (seg_start seg) (seg_end seg)) turns k))
  | (Finished, k) => k
  end.

(** ** Sample inputs *)

Definition turn_A : track :=
  {| turn_start := 0; turn_end := 2;
     track_name := lit "A"; speaker := lit "SPEAKER_00" |}.

Definition turn_B : track :=
  {| turn_start := 2; turn_end := 5;
     track_name := lit "B"; speaker := lit "SPEAKER_01" |}.

Definition turn_C : track :=
  {| turn_start := 5; turn_end := 8;
     track_name := lit "C"; speaker := lit "SPEAKER_00" |}.

Definition sample_turns : list track := [turn_A; turn_B; turn_C].

(** Overlaps [turn_A] for one second and [turn_B] for two. *)
Definition seg_hello : segment :=
  {| seg_start := 1; seg_end := 4; seg_text := lit " Hello there." |}.

(** Overlaps [turn_A] and [turn_B] for one second each. *)
Definition seg_tie : segment :=
  {| seg_start := 1; seg_end := 3; seg_text := lit " Both of us." |}.

(** Starts where the last turn ends. *)
Definition seg_late : segment :=
  {| seg_start := 8; seg_end := 9; seg_text := lit " Anyone?" |}.

(** A text with a line feed inside. *)
Definition seg_two_lines : segment :=
  {| seg_start := 0; seg_end := 1; seg_text := lit "a" ++ [LF] ++ lit "b" |}.

(** A [load_dotenv] that finds no [.env] file. *)
Definition no_dotenv (fs env : gmap str str) : gmap str str := env.

(** ** The other cells *)

(** The device cell.  [torch.cuda.is_available()] and
    [torch.cuda.get_device_name(0)] are inputs; the cell prints where the
    pipeline runs and leaves the name in [device]. *)
Definition select_device (cuda_available : bool) (device_name : str)
    : cell str :=
  if cuda_available
  then
    let device := lit "cuda" in
    effect (print (lit "Pipeline running on: " ++ device ++ lit " - "
                     ++ device_name)) ;;
    mret device
  else
    let device := lit "cpu" in
    effect (print (lit "Pipeline running on: " ++ device)) ;;
    mret device.

(** What the audio cell prints for an item of [diarization_list]. *)
Definition turn_line (item : track) : str :=
  lit "start=" ++ format_1f (turn_start item) ++ lit "s stop="
    ++ format_1f (turn_end item) ++ lit "s speaker_" ++ speaker item.

(** The audio cell, the pipeline's result being an input: the two notices
    and the loop that displays the speaker segments. *)
Definition process_audio (diarization_list : list track) (k : kernel)
    : kernel :=
  let k := print (lit "Processing speaker diarization...") k in
  let k := print (LF :: lit "Speaker segments:") k in
  fold_left (fun k item => print (turn_line item) k) diarization_list k.

(** [os.path.join("Transcription", "transcription.txt")] *)
Definition raw_path : str := lit "Transcription/transcription.txt".

(** The transcription cell, [result['text']] being an input.  The directory
    that [os.makedirs] ensures holds no text of its own, so it does not
    show in [files]. *)
Definition transcribe (result_text : str) (k : kernel) : kernel :=
  let k := print (lit "Transcribing audio...") k in
  let k := open_w raw_path k in
  let k := f_write raw_path result_text k in
  print (lit "Raw transcription saved to '" ++ raw_path ++ lit "'") k.

(** What the cell magic [%%time] adds to the output when its cell is done;
    the text is an input. *)
Definition time_report (report : str) (k : kernel) : kernel :=
  with_stdout (stdout k ++ report) k.

Section Notebook.

Variable load_dotenv : gmap str str -> gmap str str -> gmap str str.
Variable cuda_available : bool.
Variable device_name : str.
Variable diarization_list : list track.
Variable result_text : str.
Variable result_segments : list segment.
Variables time_models time_audio time_transcribe : str.

(** The cells in the notebook's order. *)
Definition run_all : cell unit :=
  HF_TOKEN ← configuration load_dotenv ;
  model_initialization HF_TOKEN ;;
  effect (time_report time_models) ;;
  device ← select_device cuda_available device_name ;
  effect (process_audio diarization_list) ;;
  effect (time_report time_audio) ;;
  effect (transcribe result_text) ;;
  effect (time_report time_transcribe) ;;
  effect (combine result_segments diarization_list).

End Notebook.

(** ** Further notions the statements use *)

(** The turn spans the whole segment. *)
Definition covers (t : track) (seg : segment) : Prop :=
  turn_start t <= seg_start seg /\ seg_end seg <= turn_end t.

(** The turns that overlap the segment for a positive time. *)
Definition overlapping (turns : list track) (seg : segment) : list track :=
  List.filter
    (fun t => py_gt (overlap (seg_start seg) (seg_end seg) t) 0) turns.

(** A segment from 0.4 s to 3.4 s and two turns that meet at 1.9 s: the first
    overlaps the segment for a little less than 1.5 s, the second for 1.5 s,
    and the two subtractions both give the float 1.5. *)
Definition seg_rounding : segment :=
  {| seg_start := float_literal (4 # 10); seg_end := float_literal (34 # 10);
     seg_text := lit " Rounded." |}.

Definition turn_first : track :=
  {| turn_start := float_literal (3 # 10); turn_end := float_literal (19 # 10);
     track_name := lit "A"; speaker := lit "SPEAKER_00" |}.

Definition turn_second : track :=
  {| turn_start := float_literal (19 # 10); turn_end := float_literal (6 # 1);
     track_name := lit "B"; speaker := lit "SPEAKER_01" |}.

(** A turn that spans [seg_hello]. *)
Definition turn_D : track :=
  {| turn_start := 0; turn_end := 9;
     track_name := lit "D"; speaker := lit "SPEAKER_02" |}.

(** A kernel whose environment holds a token. *)
Definition kernel_with_token : kernel :=
  with_environ {[ lit "HF_TOKEN" := lit "hf_token" ]} fresh_kernel.

(** * Properties *)

(** ** The model on sample inputs *)

Example format_1f_quarter : format_1f (5 # 4) = lit "1.2".
Proof. reflexivity. Qed.

Example format_1f_up : format_1f (27 # 20) = lit "1.4".
Proof. reflexivity. Qed.

Example format_1f_negative : format_1f (-1 # 25) = lit "-0.0".
Proof. reflexivity. Qed.

Example format_1f_carry : format_1f (1999 # 20) = lit "100.0".
Proof. reflexivity. Qed.

Example strip_both_ends : strip (lit " Hello there.  ") = lit "Hello there.".
Proof. reflexivity. Qed.

Example file_lines_two :
  file_lines (lit "ab" ++ [LF] ++ lit "c" ++ [LF]) = [lit "ab"; lit "c"].
Proof. reflexivity. Qed.

Example sample_output :
  output_file [seg_hello; seg_tie; seg_late] sample_turns fresh_kernel
  = Some (lit "[1.0s -> 4.0s] SPEAKER_01: Hello there." ++ [LF]
          ++ lit "[1.0s -> 3.0s] SPEAKER_00: Both of us." ++ [LF]
          ++ lit "[8.0s -> 9.0s] None: Anyone?" ++ [LF]).
Proof. vm_compute. reflexivity. Qed.

(** ** Rounding to the nearest integer *)

Lemma round_half_even_spec (n : Z) (d : positive) :
  let m := round_half_even n d in
  ((2 * m - 1) * Z.pos d <= 2 * n <= (2 * m + 1) * Z.pos d)%Z
  /\ ((2 * n = (2 * m - 1) * Z.pos d \/ 2 * n = (2 * m + 1) * Z.pos d)%Z ->
      Z.even m = true).
Proof.
  unfold round_half_even.
  pose proof (Z.div_mod n (Z.pos d) ltac:(lia)) as Hdm.
  pose proof (Z.mod_pos_bound n (Z.pos d) ltac:(lia)) as Hr.
  set (q := (n / Z.pos d)%Z) in *. set (r := (n mod Z.pos d)%Z) in *.
  destruct (Z.compare_spec (2 * r) (Z.pos d)) as [He | Hl | Hg].
  - destruct (Z.even q) eqn:Eq.
    + split; [nia |]. intros _. exact Eq.
    + split; [nia |]. intros _.
      rewrite Z.even_add. rewrite Eq. reflexivity.
  - split; [nia |]. intros [H | H]; nia.
  - split; [nia |]. intros [H | H]; nia.
Qed.

(** A greater fraction rounds to a greater or equal integer. *)
Lemma round_half_even_mono (n n' : Z) (d d' : positive) :
  (n * Z.pos d' <= n' * Z.pos d)%Z ->
  (round_half_even n d <= round_half_even n' d')%Z.
Proof.
  intros Hle.
  destruct (round_half_even_spec n d) as [[Hlo _] Htie].
  destruct (round_half_even_spec n' d') as [[_ Hup'] Htie'].
  set (m := round_half_even n d) in *. set (m' := round_half_even n' d') in *.
  destruct (Z_le_gt_dec m m') as [H | H]; [exact H | exfalso].
  assert (A1 : ((2 * m - 1) * (Z.pos d * Z.pos d') <= 2 * n * Z.pos d')%Z) by nia.
  assert (A2 : (2 * n' * Z.pos d <= (2 * m' + 1) * (Z.pos d * Z.pos d'))%Z) by nia.
  assert (A3 : ((2 * m - 1) * (Z.pos d * Z.pos d')
                <= (2 * m' + 1) * (Z.pos d * Z.pos d'))%Z) by lia.
  apply Z.mul_le_mono_pos_r in A3; [| lia].
  assert (Hm : m = (m' + 1)%Z) by lia.
  assert (E1 : (2 * n' = (2 * m' + 1) * Z.pos d')%Z).
  { subst m. replace (2 * (m' + 1) - 1)%Z with (2 * m' + 1)%Z in * by lia.
    apply (Z.mul_cancel_r _ _ (Z.pos d)); [lia |]. lia. }
  assert (E2 : (2 * n = (2 * m - 1) * Z.pos d)%Z).
  { rewrite Hm in *. replace (2 * (m' + 1) - 1)%Z with (2 * m' + 1)%Z in * by lia.
    apply (Z.mul_cancel_r _ _ (Z.pos d')); [lia |]. lia. }
  specialize (Htie (or_introl E2)). specialize (Htie' (or_intror E1)).
  rewrite Hm, Z.even_add, Htie' in Htie. discriminate Htie.
Qed.

(** An integer is its own rounding. *)
Lemma round_half_even_exact (m : Z) (d : positive) :
  round_half_even (m * Z.pos d) d = m.
Proof.
  unfold round_half_even.
  rewrite Z.div_mul, Z.mod_mul by lia. reflexivity.
Qed.

(** ** The binade of a fraction *)

Lemma up_pos (e : Z) : (0 < up e)%Z.
Proof. unfold up. apply Z.pow_pos_nonneg; lia. Qed.

Lemma down_pos (e : Z) : (0 < down e)%Z.
Proof. unfold down. apply Z.pow_pos_nonneg; lia. Qed.

(** [up e / down e] is [2^e]: the two scale by the power [e], whatever its
    sign, so moving the exponent by [k] moves the ratio by [2^k]. *)
Lemma up_down_shift (e k : Z) :
  (0 <= k)%Z -> (up (e + k) * down e = 2 ^ k * up e * down (e + k))%Z.
Proof.
  intros Hk. unfold up, down.
  destruct (Z_le_gt_dec 0 e) as [He | He].
  - rewrite (Z.max_r 0 (e + k)), (Z.max_r 0 e), (Z.max_l 0 (- e)),
      (Z.max_l 0 (- (e + k))) by lia.
    rewrite Z.pow_add_r, Z.pow_0_r by lia. ring.
  - rewrite (Z.max_l 0 e), (Z.max_r 0 (- e)) by lia.
    destruct (Z_le_gt_dec 0 (e + k)) as [Hek | Hek].
    + rewrite (Z.max_r 0 (e + k)), (Z.max_l 0 (- (e + k))) by lia.
      rewrite Z.pow_0_r, !Z.mul_1_r, <- Z.pow_add_r by lia. f_equal. lia.
    + rewrite (Z.max_l 0 (e + k)), (Z.max_r 0 (- (e + k))) by lia.
      rewrite Z.pow_0_r, Z.mul_1_l, Z.mul_1_r, <- Z.pow_add_r by lia.
      f_equal. lia.
Qed.

(** The ratio against plain powers of two. *)
Lemma up_down_pow (e a b : Z) :
  (0 <= a)%Z -> (0 <= b)%Z -> (e = a - b)%Z ->
  (up e * 2 ^ b = down e * 2 ^ a)%Z.
Proof.
  intros Ha Hb ->. unfold up, down.
  destruct (Z_le_gt_dec 0 (a - b)) as [He | He].
  - rewrite Z.max_r, Z.max_l by lia.
    rewrite Z.pow_0_r, Z.mul_1_l, <- Z.pow_add_r by lia. f_equal. lia.
  - rewrite Z.max_l, Z.max_r by lia.
    rewrite Z.pow_0_r, Z.mul_1_l, <- Z.pow_add_r by lia. f_equal. lia.
Qed.

Lemma binade_low (c d U B D A n : Z) :
  (0 < c -> 0 < U -> 0 < B -> 0 < D -> 0 < d ->
   U * B * (2 * c) = D * A -> A <= n -> d < 2 * B ->
   c * (d * U) < n * D)%Z.
Proof.
  intros Hc HU HB HD Hd Hr HA HdB.
  apply (Z.mul_lt_mono_pos_r B); [exact HB |].
  apply Z.lt_le_trans with (A * D * B)%Z.
  - replace (A * D * B)%Z with (c * (2 * B * U) * B)%Z
      by (rewrite (Z.mul_comm A D), <- Hr; ring).
    apply Z.mul_lt_mono_pos_r; [exact HB |].
    apply Z.mul_lt_mono_pos_l; [exact Hc |].
    apply Z.mul_lt_mono_pos_r; [exact HU | exact HdB].
  - replace (n * D * B)%Z with (n * (D * B))%Z by ring.
    replace (A * D * B)%Z with (A * (D * B))%Z by ring.
    apply Z.mul_le_mono_nonneg_r; [nia | exact HA].
Qed.

Lemma binade_high (c d U B D A n : Z) :
  (0 < c -> 0 < U -> 0 < B -> 0 < D -> 0 < d -> 0 < A ->
   U * B * (2 * c) = D * A -> n < 2 * A -> B <= d ->
   n * D < 4 * c * (d * U))%Z.
Proof.
  intros Hc HU HB HD Hd HA Hr HnA HBd.
  apply (Z.mul_lt_mono_pos_r B); [exact HB |].
  apply Z.lt_le_trans with (2 * A * D * B)%Z.
  - replace (n * D * B)%Z with (n * (D * B))%Z by ring.
    replace (2 * A * D * B)%Z with (2 * A * (D * B))%Z by ring.
    apply Z.mul_lt_mono_pos_r; [nia | exact HnA].
  - replace (2 * A * D * B)%Z with (2 * (U * B * (2 * c)) * B)%Z
      by (rewrite Hr; ring).
    replace (2 * (U * B * (2 * c)) * B)%Z with (4 * c * (B * U) * B)%Z by ring.
    apply Z.mul_le_mono_nonneg_r; [lia |].
    apply Z.mul_le_mono_nonneg_l; [lia |].
    apply Z.mul_le_mono_nonneg_r; [lia | exact HBd].
Qed.

Lemma binade_step (c d U0 D0 U1 D1 n : Z) :
  (0 < U0 -> 0 < U1 -> 0 < d ->
   U0 * D1 = 2 * U1 * D0 ->
   c * (d * U0) < n * D0 -> n * D0 < 2 * c * (d * U0) ->
   2 * c * (d * U1) <= n * D1 < 4 * c * (d * U1))%Z.
Proof.
  intros HU0 HU1 Hd Hs Hlow Hlt.
  assert (E : (n * D1 * U0 = 2 * U1 * (n * D0))%Z)
    by (replace (n * D1 * U0)%Z with (n * (U0 * D1))%Z by ring; rewrite Hs; ring).
  split.
  - apply Z.lt_le_incl. apply (Z.mul_lt_mono_pos_r U0); [exact HU0 |].
    rewrite E.
    replace (2 * c * (d * U1) * U0)%Z with (2 * U1 * (c * (d * U0)))%Z by ring.
    apply Z.mul_lt_mono_pos_l; [lia | exact Hlow].
  - apply (Z.mul_lt_mono_pos_r U0); [exact HU0 |].
    rewrite E.
    replace (4 * c * (d * U1) * U0)%Z with (2 * U1 * (2 * c * (d * U0)))%Z by ring.
    apply Z.mul_lt_mono_pos_l; [lia | exact Hlt].
Qed.

Lemma exponent53_binade (n : Z) (d : positive) :
  (0 < n)%Z ->
  let e := exponent53 n d in
  (2 ^ 52 * (Z.pos d * up e) <= n * down e < 2 ^ 53 * (Z.pos d * up e))%Z.
Proof.
  intros Hn. unfold exponent53.
  pose proof (Z.log2_spec n Hn) as [Ha1 Ha2].
  pose proof (Z.log2_spec (Z.pos d) ltac:(lia)) as [Hb1 Hb2].
  pose proof (Z.log2_nonneg n) as Ha0.
  pose proof (Z.log2_nonneg (Z.pos d)) as Hb0.
  set (a := Z.log2 n) in *. set (b := Z.log2 (Z.pos d)) in *.
  set (e0 := (a - b - 52)%Z).
  pose proof (up_down_pow e0 a (b + 52) Ha0 ltac:(lia) ltac:(lia)) as Hr.
  rewrite Z.pow_add_r in Hr by lia.
  rewrite Z.pow_succ_r in Ha2, Hb2 by lia.
  pose proof (up_pos e0) as Hu. pose proof (down_pos e0) as Hd.
  assert (Hpa : (0 < 2 ^ a)%Z) by (apply Z.pow_pos_nonneg; lia).
  assert (Hpb : (0 < 2 ^ b)%Z) by (apply Z.pow_pos_nonneg; lia).
  change (2 ^ 52)%Z with (2 * 2 ^ 51)%Z in *.
  change (2 ^ 53)%Z with (4 * 2 ^ 51)%Z.
  assert (Hr' : (up e0 * 2 ^ b * (2 * 2 ^ 51) = down e0 * 2 ^ a)%Z) by lia.
  assert (Hlow : (2 ^ 51 * (Z.pos d * up e0) < n * down e0)%Z)
    by (apply (binade_low _ _ _ (2 ^ b) _ (2 ^ a)); lia).
  assert (Hhigh : (n * down e0 < 4 * 2 ^ 51 * (Z.pos d * up e0))%Z)
    by (apply (binade_high _ _ _ (2 ^ b) _ (2 ^ a)); lia).
  destruct (Z.ltb_spec (n * down e0) (2 * 2 ^ 51 * (Z.pos d * up e0))) as [Hlt | Hge].
  - pose proof (up_down_shift (e0 - 1) 1 ltac:(lia)) as Hs.
    replace (e0 - 1 + 1)%Z with e0 in Hs by lia.
    change (2 ^ 1)%Z with 2%Z in Hs.
    apply (binade_step _ _ (up e0) (down e0)); try assumption; try lia.
    apply up_pos.
  - split; [exact Hge | exact Hhigh].
Qed.

(** ** Rounding to 53 bits *)

Lemma significand_den (d : positive) (e : Z) :
  Z.pos (d * Z.to_pos (up e)) = (Z.pos d * up e)%Z.
Proof. rewrite Pos2Z.inj_mul, Z2Pos.id by apply up_pos. reflexivity. Qed.

Lemma significand_bounds (n : Z) (d : positive) :
  (0 < n)%Z ->
  (2 ^ 52 <= significand n d (exponent53 n d) <= 2 ^ 53)%Z.
Proof.
  intros Hn. pose proof (exponent53_binade n d Hn) as [Hlo Hhi].
  set (e := exponent53 n d) in *. unfold significand.
  pose proof (significand_den d e) as Hden.
  split.
  - rewrite <- (round_half_even_exact (2 ^ 52) (d * Z.to_pos (up e))).
    apply round_half_even_mono. rewrite Hden. nia.
  - rewrite <- (round_half_even_exact (2 ^ 53) (d * Z.to_pos (up e))).
    apply round_half_even_mono. rewrite Hden. nia.
Qed.

(** The rounding of a positive fraction, and of its opposite. *)
Lemma round53_fraction_pos (n : Z) (d : positive) :
  (0 < n)%Z ->
  round53_fraction (n # d)
  = (1 * significand n d (exponent53 n d) * up (exponent53 n d))
      # Z.to_pos (down (exponent53 n d)).
Proof.
  intros Hn. unfold round53_fraction. simpl.
  rewrite (Z.abs_eq n) by lia.
  destruct (Z.eqb_spec n 0) as [-> | _]; [lia |].
  rewrite (Z.sgn_pos n Hn). reflexivity.
Qed.

Lemma round53_fraction_neg (n : Z) (d : positive) :
  (0 < n)%Z ->
  round53_fraction (- n # d)
  = (-1 * significand n d (exponent53 n d) * up (exponent53 n d))
      # Z.to_pos (down (exponent53 n d)).
Proof.
  intros Hn. unfold round53_fraction. simpl.
  rewrite Z.abs_opp, (Z.abs_eq n) by lia.
  destruct (Z.eqb_spec n 0) as [-> | _]; [lia |].
  rewrite (Z.sgn_neg (- n)) by lia. reflexivity.
Qed.

Lemma round53_fraction_zero (d : positive) : round53_fraction (0 # d) = 0.
Proof. reflexivity. Qed.

Lemma round53_fraction_opp (x : Q) :
  round53_fraction (- x) == - round53_fraction x.
Proof.
  destruct x as [[| n | n] d]; unfold Qopp at 1; simpl Qnum; simpl Qden.
  - reflexivity.
  - change (Z.opp (Z.pos n)) with (- Z.pos n)%Z.
    rewrite round53_fraction_neg, round53_fraction_pos by lia.
    unfold Qeq, Qopp. simpl Qnum. simpl Qden. ring.
  - change (Z.opp (Z.neg n)) with (Z.pos n).
    change (Z.neg n) with (- Z.pos n)%Z.
    rewrite round53_fraction_neg, round53_fraction_pos by lia.
    unfold Qeq, Qopp. simpl Qnum. simpl Qden. ring.
Qed.

Lemma round53_fraction_sign (x : Q) :
  (0 < x -> 0 < round53_fraction x)
  /\ (x == 0 -> round53_fraction x == 0)
  /\ (x < 0 -> round53_fraction x < 0).
Proof.
  destruct x as [[| n | n] d].
  - split; [| split]; intros H; try reflexivity; inversion H.
  - pose proof (significand_bounds (Z.pos n) d ltac:(lia)) as [Hm _].
    pose proof (up_pos (exponent53 (Z.pos n) d)) as Hu.
    split; [| split]; intros H; try (inversion H; fail).
    rewrite round53_fraction_pos by lia.
    unfold Qlt. simpl. nia.
  - pose proof (significand_bounds (Z.pos n) d ltac:(lia)) as [Hm _].
    pose proof (up_pos (exponent53 (Z.pos n) d)) as Hu.
    split; [| split]; intros H; try (inversion H; fail).
    change (Z.neg n) with (- Z.pos n)%Z.
    rewrite round53_fraction_neg by lia.
    unfold Qlt. simpl. nia.
Qed.

Lemma error_aux (m n d U D c : Z) :
  (0 < d -> 0 < U -> 0 < D -> 0 < c ->
   (2 * m - 1) * (d * U) <= 2 * (n * D) <= (2 * m + 1) * (d * U) ->
   2 * c * (d * U) <= n * D ->
   Z.abs (m * U * d - n * D) * (4 * c) <= n * D)%Z.
Proof.
  intros Hd HU HD Hc [Hlo Hhi] Hb.
  assert (Ha : (2 * Z.abs (m * U * d - n * D) <= d * U)%Z) by lia.
  apply Z.le_trans with (2 * c * (d * U))%Z; [| exact Hb].
  replace (Z.abs (m * U * d - n * D) * (4 * c))%Z
    with (2 * c * (2 * Z.abs (m * U * d - n * D)))%Z by ring.
  apply Z.mul_le_mono_nonneg_l; [lia | exact Ha].
Qed.

(** The rounding of a positive fraction is off by at most the fraction
    over [2^53]. *)
Lemma round53_fraction_error_pos (n : Z) (d : positive) :
  (0 < n)%Z ->
  Qabs (round53_fraction (n # d) - (n # d)) * inject_Z (2 ^ 53) <= n # d.
Proof.
  intros Hn. rewrite round53_fraction_pos by exact Hn.
  pose proof (exponent53_binade n d Hn) as [Hlo _].
  set (e := exponent53 n d) in *.
  destruct (round_half_even_spec (n * down e) (d * Z.to_pos (up e))) as [Hs _].
  fold (significand n d e) in Hs. rewrite significand_den in Hs.
  set (m := significand n d e) in *.
  pose proof (up_pos e) as HU. pose proof (down_pos e) as HD.
  change (2 ^ 52)%Z with (2 * 2 ^ 51)%Z in Hlo.
  pose proof (error_aux m n (Z.pos d) (up e) (down e) (2 ^ 51)
                ltac:(lia) HU HD ltac:(lia) Hs Hlo) as He.
  unfold Qle, Qabs, Qminus, Qplus, Qopp, Qmult, inject_Z. simpl Qnum. simpl Qden.
  rewrite !Pos2Z.inj_mul, !Z2Pos.id by exact HD.
  change (2 ^ 53)%Z with (4 * 2 ^ 51)%Z.
  replace (1 * m * up e * Z.pos d + - n * down e)%Z
    with (m * up e * Z.pos d - n * down e)%Z by ring.
  replace (n * (down e * Z.pos d * 1))%Z with (n * down e * Z.pos d)%Z by ring.
  apply Z.mul_le_mono_nonneg_r; [lia | exact He].
Qed.

Lemma round53_fraction_error (x : Q) :
  Qabs (round53_fraction x - x) * inject_Z (2 ^ 53) <= Qabs x.
Proof.
  destruct x as [[| n | n] d].
  - rewrite round53_fraction_zero.
    unfold Qle, Qabs, Qminus, Qplus, Qopp, Qmult, inject_Z.
    simpl Qnum. simpl Qden. lia.
  - exact (round53_fraction_error_pos (Z.pos n) d ltac:(lia)).
  - pose proof (round53_fraction_error_pos (Z.pos n) d ltac:(lia)) as H.
    assert (E : round53_fraction (Z.neg n # d) - (Z.neg n # d)
                == - (round53_fraction (Z.pos n # d) - (Z.pos n # d))).
    { change (Z.neg n # d) with (- (Z.pos n # d)).
      rewrite round53_fraction_opp. ring. }
    rewrite E, Qabs_opp. exact H.
Qed.

Lemma mono_aux_cross (n d U D n' d' U' D' p : Z) :
  (0 < d -> 0 < d' -> 0 < U -> 0 < D -> 0 < U' -> 0 < D' -> 2 <= p ->
   U * D' = p * U' * D ->
   2 ^ 52 * (d * U) <= n * D -> n' * D' < 2 ^ 53 * (d' * U') ->
   n' * d < n * d')%Z.
Proof.
  intros Hd Hd' HU HD HU' HD' Hp Hs Hlo Hhi.
  change (2 ^ 53)%Z with (2 * 2 ^ 52)%Z in Hhi.
  set (c := (2 ^ 52)%Z) in *. assert (Hc : (0 < c)%Z) by (subst c; lia).
  apply (Z.mul_lt_mono_pos_r (D * D')); [nia |].
  apply Z.lt_le_trans with (2 * c * (d' * U') * d * D)%Z.
  - replace (n' * d * (D * D'))%Z with (n' * D' * (d * D))%Z by ring.
    replace (2 * c * (d' * U') * d * D)%Z with (2 * c * (d' * U') * (d * D))%Z by ring.
    apply Z.mul_lt_mono_pos_r; [nia | exact Hhi].
  - apply Z.le_trans with (c * (d * U) * (d' * D'))%Z.
    + replace (c * (d * U) * (d' * D'))%Z with (c * d * d' * (U * D'))%Z by ring.
      rewrite Hs.
      replace (2 * c * (d' * U') * d * D)%Z with (c * d * d' * (2 * U' * D))%Z by ring.
      apply Z.mul_le_mono_nonneg_l; [nia |].
      replace (p * U' * D)%Z with (p * (U' * D))%Z by ring.
      replace (2 * U' * D)%Z with (2 * (U' * D))%Z by ring.
      apply Z.mul_le_mono_nonneg_r; [nia | exact Hp].
    + replace (n * d' * (D * D'))%Z with (n * D * (d' * D'))%Z by ring.
      apply Z.mul_le_mono_nonneg_r; [nia | exact Hlo].
Qed.

Lemma pow2_ge_2 (k : Z) : (1 <= k -> 2 <= 2 ^ k)%Z.
Proof.
  intros Hk. change 2%Z with (2 ^ 1)%Z at 1.
  apply Z.pow_le_mono_r; lia.
Qed.

Lemma round53_fraction_mono_pos (n n' : Z) (d d' : positive) :
  (0 < n)%Z -> (0 < n')%Z -> n # d <= n' # d' ->
  round53_fraction (n # d) <= round53_fraction (n' # d').
Proof.
  intros Hn Hn' Hle. unfold Qle in Hle. simpl in Hle.
  rewrite !round53_fraction_pos by assumption.
  pose proof (exponent53_binade n d Hn) as [Hlo Hhi].
  pose proof (exponent53_binade n' d' Hn') as [Hlo' Hhi'].
  pose proof (significand_bounds n d Hn) as [_ Hm].
  pose proof (significand_bounds n' d' Hn') as [Hm' _].
  set (e := exponent53 n d) in *. set (e' := exponent53 n' d') in *.
  pose proof (up_pos e) as HU. pose proof (down_pos e) as HD.
  pose proof (up_pos e') as HU'. pose proof (down_pos e') as HD'.
  unfold Qle. simpl Qnum. simpl Qden. rewrite !Z2Pos.id by assumption.
  rewrite !Z.mul_1_l.
  destruct (Z.lt_trichotomy e e') as [Hlt | [Heq | Hgt]].
  - (* a lower binade *)
    pose proof (up_down_shift e (e' - e) ltac:(lia)) as Hs.
    replace (e + (e' - e))%Z with e' in Hs by lia.
    pose proof (pow2_ge_2 (e' - e) ltac:(lia)) as Hp.
    set (p := (2 ^ (e' - e))%Z) in *.
    set (m := significand n d e) in *. set (m' := significand n' d' e') in *.
    apply Z.le_trans with (2 ^ 53 * (up e * down e'))%Z.
    + replace (m * up e * down e')%Z with (m * (up e * down e'))%Z by ring.
      apply Z.mul_le_mono_nonneg_r; [nia | exact Hm].
    + replace (m' * up e' * down e)%Z with (m' * (up e' * down e))%Z by ring.
      rewrite Hs. change (2 ^ 53)%Z with (2 * 2 ^ 52)%Z.
      replace (m' * (p * up e * down e'))%Z with (m' * p * (up e * down e'))%Z by ring.
      apply Z.mul_le_mono_nonneg_r; [nia |]. nia.
  - (* the same binade *)
    unfold e' in *. clear e'. rewrite <- Heq in *. fold e in Heq |- *.
    apply Z.mul_le_mono_nonneg_r; [lia |].
    apply Z.mul_le_mono_nonneg_r; [lia |].
    unfold significand. apply round_half_even_mono.
    rewrite !significand_den.
    replace (n * down e * (Z.pos d' * up e))%Z
      with (n * Z.pos d' * (down e * up e))%Z by ring.
    replace (n' * down e * (Z.pos d * up e))%Z
      with (n' * Z.pos d * (down e * up e))%Z by ring.
    apply Z.mul_le_mono_nonneg_r; [nia | exact Hle].
  - (* a higher binade: impossible *)
    exfalso.
    pose proof (up_down_shift e' (e - e') ltac:(lia)) as Hs.
    replace (e' + (e - e'))%Z with e in Hs by lia.
    pose proof (pow2_ge_2 (e - e') ltac:(lia)) as Hp.
    pose proof (mono_aux_cross n (Z.pos d) (up e) (down e) n' (Z.pos d')
                  (up e') (down e') (2 ^ (e - e'))
                  ltac:(lia) ltac:(lia) HU HD HU' HD' Hp Hs Hlo Hhi').
    lia.
Qed.

Lemma round53_fraction_mono (x y : Q) :
  x <= y -> round53_fraction x <= round53_fraction y.
Proof.
  intros Hle.
  destruct (round53_fraction_sign x) as (Hxp & Hxz & Hxn).
  destruct (round53_fraction_sign y) as (Hyp & Hyz & Hyn).
  destruct x as [[| n | n] d], y as [[| n' | n'] d'].
  - apply Qle_refl.
  - apply Qlt_le_weak, Hyp. reflexivity.
  - exfalso. apply (Qle_not_lt _ _ Hle). reflexivity.
  - exfalso. apply (Qle_not_lt _ _ Hle). reflexivity.
  - apply round53_fraction_mono_pos; [lia | lia | exact Hle].
  - exfalso. apply (Qle_not_lt _ _ Hle). reflexivity.
  - apply Qlt_le_weak, Hxn. reflexivity.
  - apply Qle_trans with 0.
    + apply Qlt_le_weak, Hxn. reflexivity.
    + apply Qlt_le_weak, Hyp. reflexivity.
  - assert (H : round53_fraction (Z.pos n' # d') <= round53_fraction (Z.pos n # d)).
    { apply round53_fraction_mono_pos; [lia | lia |].
      unfold Qle in *. simpl in *. lia. }
    change (Z.neg n # d) with (- (Z.pos n # d)).
    change (Z.neg n' # d') with (- (Z.pos n' # d')).
    rewrite !round53_fraction_opp. apply Qopp_le_compat. exact H.
Qed.

(** The same on values. *)

Lemma round53_equal (x y : Q) : x == y -> round53 x = round53 y.
Proof. intros H. unfold round53. rewrite (Qred_complete x y H). reflexivity. Qed.

#[global] Instance round53_proper : Proper (Qeq ==> Qeq) round53.
Proof. intros x y H. rewrite (round53_equal x y H). reflexivity. Qed.

Lemma round53_sign (x : Q) :
  (0 < round53 x <-> 0 < x) /\ (round53 x == 0 <-> x == 0)
  /\ (round53 x < 0 <-> x < 0).
Proof.
  unfold round53.
  destruct (round53_fraction_sign (Qred x)) as (Hp & Hz & Hn).
  pose proof (Qred_correct x) as Hr.
  destruct (Q_dec x 0) as [[Hx | Hx] | Hx].
  - assert (H : round53_fraction (Qred x) < 0) by (apply Hn; lra).
    repeat split; intros; try assumption; lra.
  - assert (H : 0 < round53_fraction (Qred x)) by (apply Hp; lra).
    repeat split; intros; try assumption; lra.
  - assert (H : round53_fraction (Qred x) == 0) by (apply Hz; lra).
    repeat split; intros; try assumption; lra.
Qed.

Lemma round53_mono (x y : Q) : x <= y -> round53 x <= round53 y.
Proof.
  intros H. unfold round53. apply round53_fraction_mono.
  pose proof (Qred_correct x). pose proof (Qred_correct y). lra.
Qed.

Lemma round53_error (x : Q) :
  Qabs (round53 x - x) * inject_Z (2 ^ 53) <= Qabs x.
Proof.
  unfold round53. pose proof (round53_fraction_error (Qred x)) as H.
  pose proof (Qred_correct x) as Hr.
  assert (E1 : round53_fraction (Qred x) - x == round53_fraction (Qred x) - Qred x)
    by lra.
  assert (E2 : Qabs x == Qabs (Qred x)) by (apply Qabs_wd; lra).
  rewrite E1, E2. exact H.
Qed.

Lemma round53_opp (x : Q) : round53 (- x) == - round53 x.
Proof.
  unfold round53.
  rewrite Qred_opp. apply round53_fraction_opp.
Qed.

Lemma round53_nonneg (x : Q) : 0 <= x -> 0 <= round53 x.
Proof.
  intros H. destruct (round53_sign x) as (Hp & Hz & _).
  apply Qle_lteq in H as [H | H].
  - apply Qlt_le_weak, Hp, H.
  - assert (E : round53 x == 0) by (apply Hz; lra). lra.
Qed.

Lemma round53_nonpos (x : Q) : x <= 0 -> round53 x <= 0.
Proof.
  intros H. destruct (round53_sign x) as (_ & Hz & Hn).
  apply Qle_lteq in H as [H | H].
  - apply Qlt_le_weak, Hn, H.
  - assert (E : round53 x == 0) by (apply Hz; lra). lra.
Qed.

Example float_literal_tenths :
  float_literal (4 # 10) = 3602879701896397 # 9007199254740992.
Proof. vm_compute. reflexivity. Qed.

Example float_sub_rounds :
  float_sub (float_literal (19 # 10)) (float_literal (4 # 10)) == 3 # 2
  /\ ~ float_literal (19 # 10) - float_literal (4 # 10) == 3 # 2.
Proof. split; vm_compute; [reflexivity | discriminate]. Qed.

Example float_sub_third : Qred (round53 (1 # 3)) = 6004799503160661 # 18014398509481984.
Proof. vm_compute. reflexivity. Qed.

Example round53_tie_to_even :
  round53 (9007199254740993 # 1) == 9007199254740992 # 1
  /\ round53 (9007199254740995 # 1) == 9007199254740996 # 1.
Proof. split; vm_compute; reflexivity. Qed.

(** ** Comparisons and extrema *)

Lemma py_gt_true (a b : Q) : py_gt a b = true <-> b < a.
Proof.
  unfold py_gt. rewrite (Qgt_alt a b).
  destruct (a ?= b); split; intros H; congruence.
Qed.

Lemma py_gt_false (a b : Q) : py_gt a b = false <-> a <= b.
Proof.
  rewrite <- not_true_iff_false, py_gt_true. split.
  - apply Qnot_lt_le.
  - apply Qle_not_lt.
Qed.

Lemma py_max_Qmax (a b : Q) : py_max a b == Qmax a b.
Proof.
  unfold py_max. destruct (py_gt b a) eqn:E.
  - apply py_gt_true in E. symmetry. apply Q.max_r. lra.
  - apply py_gt_false in E. symmetry. apply Q.max_l. exact E.
Qed.

Lemma py_min_Qmin (a b : Q) : py_min a b == Qmin a b.
Proof.
  unfold py_min, py_lt. destruct (py_gt a b) eqn:E.
  - apply py_gt_true in E. symmetry. apply Q.min_r. lra.
  - apply py_gt_false in E. symmetry. apply Q.min_l. exact E.
Qed.

Lemma overlap_value (s e : Q) (t : track) :
  overlap s e t
  == Qmax 0 (round53 (Qmin e (turn_end t) - Qmax s (turn_start t))).
Proof.
  unfold overlap, float_sub. rewrite py_max_Qmax.
  rewrite (round53_equal (py_min e (turn_end t) - py_max s (turn_start t))
             (Qmin e (turn_end t) - Qmax s (turn_start t)))
    by (rewrite py_min_Qmin, py_max_Qmax; reflexivity).
  reflexivity.
Qed.

Lemma overlap_nonneg (s e : Q) (t : track) : 0 <= overlap s e t.
Proof. rewrite overlap_value. apply Q.le_max_l. Qed.

Lemma exact_overlap_intersection (s1 e1 : Q) (t : track) :
  intersection_length s1 e1 (turn_start t) (turn_end t) (exact_overlap s1 e1 t).
Proof.
  unfold exact_overlap. destruct t as [s2 e2 n sp]; simpl.
  destruct (Qlt_le_dec (Qmin e1 e2) (Qmax s1 s2)) as [Hlt | Hle].
  - right. split.
    + intros x [[? ?] [? ?]].
      apply (Qlt_not_le _ _ Hlt).
      apply Qle_trans with x.
      * apply Q.max_lub; assumption.
      * apply Q.min_glb; assumption.
    + apply Q.max_l. lra.
  - left. exists (Qmax s1 s2), (Qmin e1 e2). split; [exact Hle | split].
    + intros x. unfold common, inside.
      rewrite Q.max_lub_iff, Q.min_glb_iff. tauto.
    + apply Q.max_r. lra.
Qed.

(** Two intervals have one intersection length. *)
Lemma intersection_length_unique (s1 e1 : Q) (t : track) (len : Q) :
  intersection_length s1 e1 (turn_start t) (turn_end t) len ->
  len == exact_overlap s1 e1 t.
Proof.
  unfold exact_overlap. destruct t as [s2 e2 n sp]; simpl.
  assert (Hcommon : forall x, common s1 e1 s2 e2 x
                              <-> Qmax s1 s2 <= x /\ x <= Qmin e1 e2).
  { intros x. unfold common, inside.
    rewrite Q.max_lub_iff, Q.min_glb_iff. tauto. }
  intros [(lo & hi & Hlh & Hiff & Hlen) | [Hnone Hlen]].
  - assert (Hlo : common s1 e1 s2 e2 lo)
      by (apply Hiff; split; [apply Qle_refl | exact Hlh]).
    assert (Hhi : common s1 e1 s2 e2 hi)
      by (apply Hiff; split; [exact Hlh | apply Qle_refl]).
    apply Hcommon in Hlo, Hhi.
    assert (Hmax : common s1 e1 s2 e2 (Qmax s1 s2))
      by (apply Hcommon; split; [apply Qle_refl | lra]).
    assert (Hmin : common s1 e1 s2 e2 (Qmin e1 e2))
      by (apply Hcommon; split; [lra | apply Qle_refl]).
    apply Hiff in Hmax, Hmin. destruct Hmax, Hmin.
    rewrite Hlen. symmetry. rewrite Q.max_r by lra. lra.
  - rewrite Hlen. symmetry. apply Q.max_l.
    destruct (Qlt_le_dec (Qmin e1 e2) (Qmax s1 s2)) as [Hlt | Hle]; [lra |].
    exfalso. apply (Hnone (Qmax s1 s2)). apply Hcommon.
    split; [apply Qle_refl | exact Hle].
Qed.

(** What the loop computes is the shared time rounded once. *)
Lemma overlap_rounds_exact (s1 e1 : Q) (t : track) :
  overlap s1 e1 t == round53 (exact_overlap s1 e1 t).
Proof.
  rewrite overlap_value. unfold exact_overlap.
  set (d := Qmin e1 (turn_end t) - Qmax s1 (turn_start t)).
  destruct (Qlt_le_dec 0 d) as [Hd | Hd].
  - rewrite (round53_equal (Qmax 0 d) d) by (apply Q.max_r; lra).
    apply Q.max_r. apply Qlt_le_weak. apply (round53_sign d). exact Hd.
  - rewrite (round53_equal (Qmax 0 d) 0) by (apply Q.max_l; exact Hd).
    apply Q.max_l. apply round53_nonpos. exact Hd.
Qed.

(** C3, amended.  The overlap the loop computes for a segment from [s1] to
    [e1] and a turn from [s2] to [e2] equals
    [max(0, min(e1, e2) - max(s1, s2))] with the subtraction of floats, and
    is never negative.  When [s1 <= e1] and [s2 <= e2] it is the length of
    the intersection of the two intervals rounded to the nearest float, so
    it differs from that length by at most the length over [2^53]. *)
Theorem overlap_is_rounded_intersection_length (s1 e1 : Q) (t : track) :
  overlap s1 e1 t
  == Qmax 0 (float_sub (Qmin e1 (turn_end t)) (Qmax s1 (turn_start t)))
  /\ 0 <= overlap s1 e1 t
  /\ (s1 <= e1 -> turn_start t <= turn_end t ->
      exists len,
        intersection_length s1 e1 (turn_start t) (turn_end t) len
        /\ overlap s1 e1 t == round53 len
        /\ Qabs (overlap s1 e1 t - len) * inject_Z (2 ^ 53) <= len).
Proof.
  split; [apply overlap_value | split; [apply overlap_nonneg |]].
  intros _ _. exists (exact_overlap s1 e1 t).
  split; [apply exact_overlap_intersection | split; [apply overlap_rounds_exact |]].
  pose proof (round53_error (exact_overlap s1 e1 t)) as He.
  assert (Hnn : 0 <= exact_overlap s1 e1 t) by apply Q.le_max_l.
  rewrite (Qabs_pos _ Hnn) in He.
  assert (E : Qabs (overlap s1 e1 t - exact_overlap s1 e1 t)
              == Qabs (round53 (exact_overlap s1 e1 t) - exact_overlap s1 e1 t)).
  { apply Qabs_wd. pose proof (overlap_rounds_exact s1 e1 t). lra. }
  rewrite E. exact He.
Qed.

(** C3 as stated fails: for the segment from 0.4 s to 3.4 s and the turn from
    0.3 s to 1.9 s the loop computes 1.5, and the intersection is shorter
    than that. *)
Lemma overlap_exact_length_counterexample :
  seg_start seg_rounding <= seg_end seg_rounding
  /\ turn_start turn_first <= turn_end turn_first
  /\ overlap (seg_start seg_rounding) (seg_end seg_rounding) turn_first == 3 # 2
  /\ intersection_length (seg_start seg_rounding) (seg_end seg_rounding)
       (turn_start turn_first) (turn_end turn_first)
       (13510798882111487 # 9007199254740992)
  /\ ~ intersection_length (seg_start seg_rounding) (seg_end seg_rounding)
         (turn_start turn_first) (turn_end turn_first)
         (overlap (seg_start seg_rounding) (seg_end seg_rounding) turn_first).
Proof.
  assert (Hexact : exact_overlap (seg_start seg_rounding) (seg_end seg_rounding)
                     turn_first
                   == 13510798882111487 # 9007199254740992)
    by (vm_compute; reflexivity).
  assert (Hov : overlap (seg_start seg_rounding) (seg_end seg_rounding) turn_first
                == 3 # 2) by (vm_compute; reflexivity).
  split; [vm_compute; discriminate |].
  split; [vm_compute; discriminate |].
  split; [exact Hov |].
  split.
  - pose proof (exact_overlap_intersection (seg_start seg_rounding)
                  (seg_end seg_rounding) turn_first) as H.
    destruct H as [(lo & hi & Hlh & Hiff & Hlen) | [Hnone Hlen]].
    + left. exists lo, hi. split; [exact Hlh | split; [exact Hiff |]].
      rewrite <- Hlen. symmetry. exact Hexact.
    + right. split; [exact Hnone |]. rewrite <- Hlen. symmetry. exact Hexact.
  - intros H. apply intersection_length_unique in H.
    rewrite Hov, Hexact in H. vm_compute in H. discriminate H.
Qed.

(** C4.  The overlap is symmetric: the segment's interval and the turn's
    interval can exchange roles without changing the value computed.  The
    two sides are equal as numbers ([==]); as fractions they can differ, as
    [1#2] and [2#4] do. *)
Theorem overlap_symmetric (s1 e1 : Q) (t : track) :
  overlap s1 e1 t == overlap (turn_start t) (turn_end t) (swap_roles s1 e1 t).
Proof.
  rewrite !overlap_value. simpl.
  rewrite (Q.max_comm s1), (Q.min_comm e1). reflexivity.
Qed.

(** ** Formatting and stripping *)

Lemma round_half_even_nearest (n : Z) (d : positive) :
  (Z.abs (2 * n - 2 * round_half_even n d * Z.pos d) <= Z.pos d)%Z.
Proof.
  unfold round_half_even.
  pose proof (Z.div_mod n (Z.pos d) ltac:(lia)) as Hdm.
  pose proof (Z.mod_pos_bound n (Z.pos d) ltac:(lia)) as Hr.
  set (q := (n / Z.pos d)%Z) in *. set (r := (n mod Z.pos d)%Z) in *.
  destruct (Z.compare_spec (2 * r) (Z.pos d)) as [He | Hl | Hg];
    [destruct (Z.even q) | | ]; nia.
Qed.

Lemma round_half_even_nonneg (n : Z) (d : positive) :
  (0 <= n -> 0 <= round_half_even n d)%Z.
Proof.
  intros Hn. unfold round_half_even.
  pose proof (Z.div_pos n (Z.pos d) Hn ltac:(lia)).
  destruct (_ ?= _)%Z; [destruct (Z.even _) | | ]; lia.
Qed.

(** [tenths x] is within half a tenth of [|x|]. *)
Lemma tenths_nearest (x : Q) :
  (Z.abs (2 * (Z.abs (Qnum x) * 10) - 2 * tenths x * Z.pos (Qden x))
   <= Z.pos (Qden x))%Z.
Proof. apply round_half_even_nearest. Qed.

Lemma decimal_digit (m : Z) :
  (0 <= m < 10)%Z -> exists c, decimal m = [c] /\ (48 <= c <= 57)%N.
Proof.
  intros Hm.
  assert (H : (m = 0 \/ m = 1 \/ m = 2 \/ m = 3 \/ m = 4 \/ m = 5 \/ m = 6
               \/ m = 7 \/ m = 8 \/ m = 9)%Z) by lia.
  repeat destruct H as [-> | H]; try subst m;
    eexists; (split; [reflexivity | lia]).
Qed.

(** One digit follows the decimal point. *)
Lemma format_1f_one_decimal (x : Q) :
  exists digit,
    format_1f x
    = (if (Qnum x <? 0)%Z then lit "-" else [])
        ++ decimal (tenths x / 10) ++ lit "." ++ [digit]
    /\ (48 <= digit <= 57)%N.
Proof.
  destruct (decimal_digit (tenths x mod 10)) as (c & Hc & Hr).
  { apply Z.mod_pos_bound. lia. }
  exists c. unfold format_1f. rewrite Hc. split; [reflexivity | exact Hr].
Qed.

Lemma lstrip_spec (s : str) :
  exists ws, s = ws ++ lstrip s /\ Forall (fun c => isspace c = true) ws
    /\ (forall c, head (lstrip s) = Some c -> isspace c = false).
Proof.
  induction s as [| c s (ws & Hs & Hws & Hhd)]; simpl.
  - exists []. repeat split; [constructor | discriminate].
  - destruct (isspace c) eqn:E.
    + exists (c :: ws). simpl. rewrite <- Hs.
      repeat split; [constructor; assumption | exact Hhd].
    + exists []. repeat split; [constructor |]. simpl. congruence.
Qed.

(** [strip] removes a run of whitespace at each end, and what it leaves
    neither starts nor ends with whitespace. *)
Lemma strip_spec (s : str) :
  exists before after,
    s = before ++ strip s ++ after
    /\ Forall (fun c => isspace c = true) before
    /\ Forall (fun c => isspace c = true) after
    /\ (forall c, head (strip s) = Some c -> isspace c = false)
    /\ (forall c, last (strip s) = Some c -> isspace c = false).
Proof.
  destruct (lstrip_spec s) as (before & Hs & Hb & Hhd).
  destruct (lstrip_spec (rev (lstrip s))) as (ws & Hr & Hws & Hlast).
  exists before, (rev ws). unfold strip, rstrip.
  set (core := lstrip (rev (lstrip s))) in *.
  assert (Hl : lstrip s = rev core ++ rev ws).
  { rewrite <- rev_app_distr, <- Hr, rev_involutive. reflexivity. }
  repeat split.
  - rewrite <- Hl. exact Hs.
  - exact Hb.
  - apply Forall_rev. exact Hws.
  - intros c Hc. apply Hhd. rewrite Hl.
    destruct (rev core); [discriminate | exact Hc].
  - intros c Hc. apply Hlast. rewrite rev_alt in Hc.
    rewrite <- (last_reverse core). exact Hc.
Qed.

(** ** The inner loop *)

Section InnerLoop.

Variables s e : Q.

Local Abbreviation ov := (overlap s e).
Local Abbreviation scan := (fold_left (turn_body s e)).

Lemma turn_body_keep (k : kernel) (t : track) :
  ov t <= max_overlap k -> turn_body s e k t = k.
Proof.
  intros H. unfold turn_body. apply py_gt_false in H. rewrite H. reflexivity.
Qed.

Lemma turn_body_take (k : kernel) (t : track) :
  max_overlap k < ov t ->
  turn_body s e k t
  = with_current_speaker (Some (speaker t)) (with_max_overlap (ov t) k).
Proof.
  intros H. unfold turn_body. apply py_gt_true in H. rewrite H. reflexivity.
Qed.

Lemma turn_body_cases (k : kernel) (t : track) :
  (ov t <= max_overlap k /\ turn_body s e k t = k)
  \/ (max_overlap k < ov t
      /\ turn_body s e k t
         = with_current_speaker (Some (speaker t)) (with_max_overlap (ov t) k)).
Proof.
  destruct (Qlt_le_dec (max_overlap k) (ov t)) as [H | H].
  - right. split; [exact H | apply turn_body_take, H].
  - left. split; [exact H | apply turn_body_keep, H].
Qed.

(** The loop touches nothing but its two globals. *)
Lemma scan_frame (turns : list track) (k : kernel) :
  environ (scan turns k) = environ k /\ files (scan turns k) = files k
  /\ stdout (scan turns k) = stdout k /\ loaded (scan turns k) = loaded k.
Proof.
  revert k. induction turns as [| t turns IH]; intros k; simpl; [tauto |].
  destruct (IH (turn_body s e k t)) as (-> & -> & -> & ->).
  destruct (turn_body_cases k t) as [[_ ->] | [_ ->]]; simpl; tauto.
Qed.

(** Turns that do not exceed the running maximum leave the state alone. *)
Lemma scan_keep (turns : list track) (k : kernel) :
  Forall (fun t => ov t <= max_overlap k) turns -> scan turns k = k.
Proof.
  induction 1 as [| t turns Ht _ IH]; simpl; [reflexivity |].
  rewrite (turn_body_keep k t Ht). exact IH.
Qed.

(** The running maximum stays below a bound that every turn stays below. *)
Lemma scan_below (bound : Q) (turns : list track) (k : kernel) :
  max_overlap k < bound -> Forall (fun t => ov t < bound) turns ->
  max_overlap (scan turns k) < bound.
Proof.
  intros Hk Hall. revert k Hk.
  induction Hall as [| t turns Ht _ IH]; intros k Hk; simpl; [exact Hk |].
  apply IH. destruct (turn_body_cases k t) as [[_ ->] | [_ ->]]; simpl; assumption.
Qed.

(** The loop either changes nothing, every turn being at most the starting
    maximum, or ends on the first turn that attains the greatest overlap. *)
Lemma scan_first_max (turns : list track) (k : kernel) :
  (scan turns k = k /\ Forall (fun t => ov t <= max_overlap k) turns)
  \/ (exists pre t post,
        turns = pre ++ t :: post
        /\ max_overlap (scan turns k) = ov t
        /\ current_speaker (scan turns k) = Some (speaker t)
        /\ max_overlap k < ov t
        /\ Forall (fun t' => ov t' < ov t) pre
        /\ Forall (fun t' => ov t' <= ov t) post).
Proof.
  revert k. induction turns as [| t turns IH]; intros k; simpl.
  - left. split; [reflexivity | constructor].
  - destruct (turn_body_cases k t) as [[Hle ->] | [Hlt ->]].
    + destruct (IH k) as [[Hk Hall] | (pre & t2 & post & -> & Hm & Hw & Hlt & Hpre & Hpost)].
      * left. split; [exact Hk | constructor; assumption].
      * right. exists (t :: pre), t2, post.
        repeat split; try assumption.
        constructor; [| exact Hpre]. eapply Qle_lt_trans; eassumption.
    + set (k1 := with_current_speaker _ _).
      destruct (IH k1) as [[Hk Hall] | (pre & t2 & post & -> & Hm & Hw & Hlt2 & Hpre & Hpost)].
      * right. exists [], t, turns. rewrite Hk.
        repeat split; try assumption. constructor.
      * right. exists (t :: pre), t2, post. simpl in Hlt2.
        repeat split; try assumption.
        -- eapply Qlt_trans; eassumption.
        -- constructor; assumption.
Qed.

End InnerLoop.

(** ** The speaker found for a segment *)

Lemma find_speaker_frame (turns : list track) (seg : segment) (k : kernel) :
  environ (find_speaker turns seg k) = environ k
  /\ files (find_speaker turns seg k) = files k
  /\ stdout (find_speaker turns seg k) = stdout k
  /\ loaded (find_speaker turns seg k) = loaded k.
Proof.
  unfold find_speaker.
  destruct (scan_frame (seg_start seg) (seg_end seg) turns
              (with_current_speaker None (with_max_overlap 0 k)))
    as (-> & -> & -> & ->).
  simpl. tauto.
Qed.

Lemma find_speaker_cases (turns : list track) (seg : segment) (k : kernel) :
  let ov := overlap (seg_start seg) (seg_end seg) in
  let k' := find_speaker turns seg k in
  (current_speaker k' = None /\ max_overlap k' = 0
   /\ Forall (fun t => ov t <= 0) turns)
  \/ (exists pre t post,
        turns = pre ++ t :: post
        /\ max_overlap k' = ov t
        /\ current_speaker k' = Some (speaker t)
        /\ 0 < ov t
        /\ Forall (fun t' => ov t' < ov t) pre
        /\ Forall (fun t' => ov t' <= ov t) post).
Proof.
  intros ov k'. subst k'. unfold find_speaker.
  set (k0 := with_current_speaker None (with_max_overlap 0 k)).
  destruct (scan_first_max (seg_start seg) (seg_end seg) turns k0)
    as [[-> Hall] | H].
  - left. simpl. repeat split. exact Hall.
  - right. exact H.
Qed.

Lemma find_speaker_none (turns : list track) (seg : segment) (k : kernel) :
  Forall (fun t => ~ 0 < overlap (seg_start seg) (seg_end seg) t) turns ->
  current_speaker (find_speaker turns seg k) = None.
Proof.
  intros Hall.
  destruct (find_speaker_cases turns seg k)
    as [(Hw & _) | (pre & t & post & -> & _ & _ & Hpos & _)]; [exact Hw |].
  rewrite Forall_forall in Hall. destruct (Hall t); [| exact Hpos].
  apply elem_of_app. right. apply elem_of_cons. left. reflexivity.
Qed.

Lemma find_speaker_first_max (pre post : list track) (t : track)
    (seg : segment) (k : kernel) :
  let ov := overlap (seg_start seg) (seg_end seg) in
  0 < ov t ->
  Forall (fun t' => ov t' < ov t) pre ->
  Forall (fun t' => ov t' <= ov t) post ->
  current_speaker (find_speaker (pre ++ t :: post) seg k) = Some (speaker t).
Proof.
  intros ov Hpos Hpre Hpost. unfold find_speaker.
  set (k0 := with_current_speaker None (with_max_overlap 0 k)).
  rewrite fold_left_app. simpl.
  set (k1 := fold_left _ pre k0).
  assert (Hk1 : max_overlap k1 < ov t)
    by (apply scan_below; [exact Hpos | exact Hpre]).
  rewrite (turn_body_take _ _ k1 t Hk1).
  rewrite scan_keep; [reflexivity | exact Hpost].
Qed.

(** The speaker found does not depend on the kernel the loop starts in. *)
Lemma find_speaker_assigned (turns : list track) (seg : segment) (k : kernel) :
  current_speaker (find_speaker turns seg k) = assigned_speaker turns seg.
Proof.
  unfold assigned_speaker.
  destruct (find_speaker_cases turns seg k)
    as [(Hw & _ & Hall) | (pre & t & post & -> & _ & Hw & Hpos & Hpre & Hpost)].
  - rewrite Hw. symmetry. apply find_speaker_none.
    eapply Forall_impl; [exact Hall |]. intros t Ht. simpl in Ht. apply Qle_not_lt, Ht.
  - rewrite Hw. symmetry. apply find_speaker_first_max; assumption.
Qed.

(** C1, amended.  When some turn overlaps the segment for a positive time,
    the loop leaves in [current_speaker] the label of a turn of the list
    whose overlap with the segment, as the loop computes it, no turn of the
    list exceeds; when no turn does, it leaves [None]. *)
Theorem speaker_has_maximal_overlap (turns : list track) (seg : segment) (k : kernel) :
  let ov := overlap (seg_start seg) (seg_end seg) in
  let who := current_speaker (find_speaker turns seg k) in
  (Exists (fun t => 0 < ov t) turns ->
     assigns_maximal_overlap_speaker turns seg who)
  /\ (Forall (fun t => ~ 0 < ov t) turns -> who = None).
Proof.
  intros ov who. split.
  - intros Hex.
    destruct (find_speaker_cases turns seg k)
      as [(_ & _ & Hall) | (pre & t & post & -> & _ & Hw & Hpos & Hpre & Hpost)].
    + exfalso. apply Exists_exists in Hex as (t & Hin & Hpos).
      rewrite Forall_forall in Hall. specialize (Hall t Hin). simpl in Hall.
      fold ov in Hall. lra.
    + exists t. split; [| split; [exact Hw |]].
      * apply elem_of_app. right. apply elem_of_cons. left. reflexivity.
      * apply Forall_app. split.
        -- eapply Forall_impl; [exact Hpre |]. intros ? ?. apply Qlt_le_weak. assumption.
        -- constructor; [apply Qle_refl | exact Hpost].
  - apply find_speaker_none.
Qed.

(** C1 as stated fails: the only turn of the list, which has the greatest
    overlap of the list, does not overlap the segment, and the segment is
    left without a label. *)
Lemma every_segment_labelled_counterexample :
  current_speaker (find_speaker [turn_C] seg_hello fresh_kernel) = None
  /\ ~ assigns_maximal_overlap_speaker [turn_C] seg_hello
        (current_speaker (find_speaker [turn_C] seg_hello fresh_kernel)).
Proof.
  split; [reflexivity |].
  intros (t & _ & H & _). discriminate H.
Qed.

(** C8.  Ties go to the first turn: when the turn [t] has a positive overlap
    that no turn of the list exceeds and no turn before [t] equals, the loop
    assigns the speaker of [t], whatever follows [t] in the list.  The
    overlaps are the ones the loop computes, so two turns also tie when
    their overlaps differ by less than the rounding tells apart. *)
Theorem first_maximal_turn_wins (pre post : list track) (t : track)
    (seg : segment) (k : kernel) :
  let ov := overlap (seg_start seg) (seg_end seg) in
  0 < ov t ->
  Forall (fun t' => ov t' <= ov t) (pre ++ t :: post) ->
  Forall (fun t' => ~ ov t' == ov t) pre ->
  current_speaker (find_speaker (pre ++ t :: post) seg k) = Some (speaker t).
Proof.
  intros ov Hpos Hmax Hfirst.
  apply Forall_app in Hmax as [Hpre Hpost].
  apply Forall_cons in Hpost as [_ Hpost].
  apply find_speaker_first_max; [exact Hpos | | exact Hpost].
  rewrite Forall_forall in *. intros t' Hin.
  specialize (Hpre t' Hin). specialize (Hfirst t' Hin). simpl in *.
  apply Qle_lteq in Hpre as [Hlt | Heq]; [exact Hlt | contradiction].
Qed.

(** The two turns of the sample overlap the segment for different times,
    the loop computes 1.5 for both, and the first one wins. *)
Example rounding_makes_a_tie :
  exact_overlap (seg_start seg_rounding) (seg_end seg_rounding) turn_first
  < exact_overlap (seg_start seg_rounding) (seg_end seg_rounding) turn_second
  /\ overlap (seg_start seg_rounding) (seg_end seg_rounding) turn_first == 3 # 2
  /\ overlap (seg_start seg_rounding) (seg_end seg_rounding) turn_second == 3 # 2
  /\ current_speaker
       (find_speaker [turn_first; turn_second] seg_rounding fresh_kernel)
     = Some (lit "SPEAKER_00").
Proof. repeat split; vm_compute; reflexivity. Qed.

(** One second later the same segment and turns give 1.5 and
    1.5000000000000004, and the second turn wins. *)
Example a_second_later :
  let seg := {| seg_start := float_literal (14 # 10);
                seg_end := float_literal (44 # 10); seg_text := [] |} in
  let first := {| turn_start := float_literal (13 # 10);
                  turn_end := float_literal (29 # 10);
                  track_name := lit "A"; speaker := lit "SPEAKER_00" |} in
  let second := {| turn_start := float_literal (29 # 10);
                   turn_end := float_literal (7 # 1);
                   track_name := lit "B"; speaker := lit "SPEAKER_01" |} in
  overlap (seg_start seg) (seg_end seg) first == 3 # 2
  /\ overlap (seg_start seg) (seg_end seg) second
     == 3377699720527873 # 2251799813685248
  /\ current_speaker (find_speaker [first; second] seg fresh_kernel)
     = Some (lit "SPEAKER_01").
Proof. repeat split; vm_compute; reflexivity. Qed.

Lemma format_line_shape (seg : segment) (who : option str) :
  format_line seg who
  = lit "[" ++ format_1f (seg_start seg) ++ lit "s -> "
      ++ format_1f (seg_end seg) ++ lit "s] " ++ py_str who ++ lit ": "
      ++ strip (seg_text seg) ++ [LF].
Proof. unfold format_line. rewrite <- !app_assoc. reflexivity. Qed.

Lemma write_line_files (seg : segment) (k : kernel) :
  files (write_line seg k) !! output_path
  = Some (default [] (files k !! output_path)
            ++ format_line seg (current_speaker k)).
Proof. unfold write_line, f_write, print. simpl. apply lookup_insert_eq. Qed.

Lemma zero_length_no_overlap (seg : segment) (t : track) :
  seg_start seg == seg_end seg ->
  ~ 0 < overlap (seg_start seg) (seg_end seg) t.
Proof.
  intros H. rewrite overlap_value.
  pose proof (Q.le_min_l (seg_end seg) (turn_end t)).
  pose proof (Q.le_max_l (seg_start seg) (turn_start t)).
  apply Qle_not_lt. apply Q.max_lub; [lra |].
  apply round53_nonpos. lra.
Qed.

Lemma touching_no_overlap (seg : segment) (t : track) :
  touches seg t -> ~ 0 < overlap (seg_start seg) (seg_end seg) t.
Proof.
  intros H. rewrite overlap_value.
  pose proof (Q.le_min_l (seg_end seg) (turn_end t)).
  pose proof (Q.le_min_r (seg_end seg) (turn_end t)).
  pose proof (Q.le_max_l (seg_start seg) (turn_start t)).
  pose proof (Q.le_max_r (seg_start seg) (turn_start t)).
  apply Qle_not_lt. apply Q.max_lub; [lra |].
  apply round53_nonpos. destruct H; lra.
Qed.

(** C9.  When no turn overlaps the segment for a positive time, which is the
    case when the list of turns is empty, when the segment has zero length
    and when every turn only touches the segment at an end, the loop leaves
    [current_speaker] at [None] and the line written for the segment has
    [None] as its speaker label. *)
Theorem no_overlap_leaves_None (turns : list track) (seg : segment) (k : kernel) :
  let ov := overlap (seg_start seg) (seg_end seg) in
  turns = [] \/ seg_start seg == seg_end seg \/ Forall (touches seg) turns
    \/ Forall (fun t => ~ 0 < ov t) turns ->
  let k' := segment_body turns k seg in
  current_speaker k' = None
  /\ files k' !! output_path
     = Some (default [] (files k !! output_path)
               ++ lit "[" ++ format_1f (seg_start seg) ++ lit "s -> "
               ++ format_1f (seg_end seg) ++ lit "s] " ++ lit "None" ++ lit ": "
               ++ strip (seg_text seg) ++ [LF]).
Proof.
  intros ov H k'.
  assert (Hnone : current_speaker (find_speaker turns seg k) = None).
  { apply find_speaker_none. destruct H as [-> | [H | [H | H]]].
    - constructor.
    - apply Forall_forall. intros t _. apply zero_length_no_overlap, H.
    - eapply Forall_impl; [exact H |]. intros t. apply touching_no_overlap.
    - exact H. }
  subst k'. unfold segment_body. split.
  - exact Hnone.
  - rewrite write_line_files, Hnone, format_line_shape.
    destruct (find_speaker_frame turns seg k) as (_ & -> & _).
    reflexivity.
Qed.

(** ** The outer loop and the cell *)

Lemma write_line_stdout (seg : segment) (k : kernel) :
  stdout (write_line seg k)
  = stdout k ++ strip (format_line seg (current_speaker k)) ++ [LF].
Proof. reflexivity. Qed.

Lemma segment_body_files (turns : list track) (seg : segment) (k : kernel) :
  files (segment_body turns k seg) !! output_path
  = Some (default [] (files k !! output_path) ++ line_for turns seg).
Proof.
  unfold segment_body, line_for.
  rewrite write_line_files, find_speaker_assigned.
  destruct (find_speaker_frame turns seg k) as (_ & -> & _). reflexivity.
Qed.

Lemma segment_body_stdout (turns : list track) (seg : segment) (k : kernel) :
  stdout (segment_body turns k seg) = stdout k ++ printed_line turns seg.
Proof.
  unfold segment_body, printed_line, line_for.
  rewrite write_line_stdout, find_speaker_assigned.
  destruct (find_speaker_frame turns seg k) as (_ & _ & -> & _). reflexivity.
Qed.

Lemma combine_loop_files (segs : list segment) (turns : list track)
    (k : kernel) (written : str) :
  files k !! output_path = Some written ->
  files (combine_loop segs turns k) !! output_path
  = Some (written ++ concat (map (line_for turns) segs)).
Proof.
  unfold combine_loop. revert k written.
  induction segs as [| seg segs IH]; intros k written Hk; simpl.
  - rewrite app_nil_r. exact Hk.
  - rewrite (IH _ (written ++ line_for turns seg)).
    + rewrite <- app_assoc. reflexivity.
    + rewrite segment_body_files, Hk. reflexivity.
Qed.

Lemma combine_loop_stdout (segs : list segment) (turns : list track)
    (k : kernel) :
  stdout (combine_loop segs turns k)
  = stdout k ++ concat (map (printed_line turns) segs).
Proof.
  unfold combine_loop. revert k.
  induction segs as [| seg segs IH]; intros k; simpl.
  - rewrite app_nil_r. reflexivity.
  - rewrite IH, segment_body_stdout, <- app_assoc. reflexivity.
Qed.

Lemma output_file_content (segs : list segment) (turns : list track)
    (k : kernel) :
  output_file segs turns k = Some (concat (map (line_for turns) segs)).
Proof.
  unfold output_file, combine. simpl.
  rewrite (combine_loop_files segs turns _ []); [reflexivity |].
  simpl. apply lookup_insert_eq.
Qed.

Lemma combine_stdout (segs : list segment) (turns : list track) (k : kernel) :
  stdout (combine segs turns k)
  = stdout k
      ++ (lit "Combining transcription with speaker information..." ++ [LF])
      ++ concat (map (printed_line turns) segs)
      ++ (LF :: lit "Transcription with speaker identification saved to '"
             ++ output_path ++ lit "'") ++ [LF].
Proof.
  unfold combine. unfold print at 1. cbn [stdout with_stdout].
  rewrite combine_loop_stdout. cbn [stdout open_w with_files print with_stdout].
  rewrite <- !app_assoc. reflexivity.
Qed.

(** C5.  Two runs of the cell on the same segments and the same turns leave
    the same text in the output file and print the same text, whatever the
    environment, the files, the earlier output and the globals they start
    from. *)
Theorem combine_deterministic (segs : list segment) (turns : list track)
    (k1 k2 : kernel) :
  output_file segs turns k1 = output_file segs turns k2
  /\ is_Some (output_file segs turns k1)
  /\ exists printed,
       stdout (combine segs turns k1) = stdout k1 ++ printed
       /\ stdout (combine segs turns k2) = stdout k2 ++ printed.
Proof.
  rewrite !output_file_content. split; [reflexivity | split; [eexists; reflexivity |]].
  eexists. split; apply combine_stdout.
Qed.

(** ** The lines of the output file *)

Lemma file_lines_terminated (l rest : str) :
  LF ∉ l -> file_lines (l ++ LF :: rest) = l :: file_lines rest.
Proof.
  induction l as [| c l IH]; intros Hl; simpl.
  - reflexivity.
  - apply not_elem_of_cons in Hl as [Hc Hl].
    destruct (N.eqb_spec c LF) as [-> | _]; [congruence |].
    rewrite (IH Hl). reflexivity.
Qed.

Lemma file_lines_records (records : list str) :
  Forall (fun r => LF ∉ r) records ->
  file_lines (concat (map (fun r => r ++ [LF]) records)) = records.
Proof.
  induction 1 as [| r records Hr _ IH]; simpl; [reflexivity |].
  rewrite <- app_assoc. simpl.
  rewrite (file_lines_terminated r _ Hr), IH. reflexivity.
Qed.

Lemma no_LF_checked (l : str) : bool_decide (LF ∉ l) = true -> LF ∉ l.
Proof. intros H. apply bool_decide_eq_true in H. exact H. Qed.

Lemma uint_str_no_LF (d : Decimal.uint) : LF ∉ uint_str d.
Proof.
  induction d; simpl; try apply not_elem_of_nil;
    (apply not_elem_of_cons; split; [discriminate | assumption]).
Qed.

Lemma format_1f_no_LF (x : Q) : LF ∉ format_1f x.
Proof.
  unfold format_1f, decimal. rewrite !elem_of_app.
  intros [H | [H | [H | H]]].
  - destruct (Qnum x <? 0)%Z; [| inversion H].
    exact (no_LF_checked (lit "-") eq_refl H).
  - exact (uint_str_no_LF _ H).
  - exact (no_LF_checked (lit ".") eq_refl H).
  - exact (uint_str_no_LF _ H).
Qed.

Lemma assigned_speaker_source (turns : list track) (seg : segment) :
  assigned_speaker turns seg = None
  \/ exists t, t ∈ turns /\ assigned_speaker turns seg = Some (speaker t).
Proof.
  unfold assigned_speaker.
  destruct (find_speaker_cases turns seg fresh_kernel)
    as [(Hw & _) | (pre & t & post & -> & _ & Hw & _)].
  - left. exact Hw.
  - right. exists t. split; [| exact Hw].
    apply elem_of_app. right. apply elem_of_cons. left. reflexivity.
Qed.

Lemma py_str_assigned_no_LF (turns : list track) (seg : segment) :
  Forall (fun t => LF ∉ speaker t) turns ->
  LF ∉ py_str (assigned_speaker turns seg).
Proof.
  intros Hall.
  destruct (assigned_speaker_source turns seg) as [-> | (t & Hin & ->)]; simpl.
  - exact (no_LF_checked (lit "None") eq_refl).
  - rewrite Forall_forall in Hall. apply Hall, Hin.
Qed.

Lemma spec_line_no_LF (turns : list track) (seg : segment) :
  LF ∉ strip (seg_text seg) ->
  Forall (fun t => LF ∉ speaker t) turns ->
  LF ∉ spec_line turns seg.
Proof.
  intros Htext Hturns. unfold spec_line. rewrite !elem_of_app.
  pose proof (format_1f_no_LF (seg_start seg)).
  pose proof (format_1f_no_LF (seg_end seg)).
  pose proof (py_str_assigned_no_LF turns seg Hturns).
  pose proof (no_LF_checked (lit "[") eq_refl).
  pose proof (no_LF_checked (lit "s -> ") eq_refl).
  pose proof (no_LF_checked (lit "s] ") eq_refl).
  pose proof (no_LF_checked (lit ": ") eq_refl).
  tauto.
Qed.

Lemma line_for_spec_line (turns : list track) (seg : segment) :
  line_for turns seg = spec_line turns seg ++ [LF].
Proof.
  unfold line_for, spec_line. rewrite format_line_shape, <- !app_assoc.
  reflexivity.
Qed.

(** C2, amended.  The output file is the concatenation, in the order of the
    segments, of one record per segment, each record being
    [[<start>s -> <end>s] <speaker>: <text>] followed by a line feed, with
    the times rendered by [:.1f] and the text stripped.  When no stripped
    text and no speaker label contains a line feed, the lines of the file
    are exactly these records, one line per segment. *)
Theorem output_one_record_per_segment (segs : list segment)
    (turns : list track) (k : kernel) :
  exists content,
    output_file segs turns k = Some content
    /\ content = concat (map (fun seg => spec_line turns seg ++ [LF]) segs)
    /\ (Forall (fun seg => LF ∉ strip (seg_text seg)) segs ->
        Forall (fun t => LF ∉ speaker t) turns ->
        file_lines content = map (spec_line turns) segs).
Proof.
  exists (concat (map (fun seg => spec_line turns seg ++ [LF]) segs)).
  split; [| split; [reflexivity |]].
  - rewrite output_file_content. f_equal. f_equal.
    apply map_ext. intros seg. apply line_for_spec_line.
  - intros Htext Hturns.
    rewrite <- (map_map (spec_line turns) (fun r => r ++ [LF])).
    apply file_lines_records.
    apply Forall_map. eapply Forall_impl; [exact Htext |].
    intros seg Hseg. simpl. apply spec_line_no_LF; assumption.
Qed.

(** C2 as stated fails: one segment whose text has a line feed inside
    leaves two lines in the file. *)
Lemma output_line_count_counterexample :
  exists content,
    output_file [seg_two_lines] [] fresh_kernel = Some content
    /\ file_lines content
       = [lit "[0.0s -> 1.0s] None: a"; lit "b"]
    /\ length (file_lines content) <> length [seg_two_lines].
Proof.
  eexists. split; [vm_compute; reflexivity |].
  split; [vm_compute; reflexivity | vm_compute; discriminate].
Qed.

(** ** No state is carried from one segment to the next *)

Lemma overlap_agree (s e s' e' : Q) (t : track) :
  s == s' -> e == e' -> overlap s e t == overlap s' e' t.
Proof. intros Hs He. rewrite !overlap_value, Hs, He. reflexivity. Qed.

Lemma py_gt_agree (a b a' b' : Q) :
  a == a' -> b == b' -> py_gt a b = py_gt a' b'.
Proof. intros Ha Hb. unfold py_gt. rewrite Ha, Hb. reflexivity. Qed.

Lemma scan_agree (s e s' e' : Q) (turns : list track) (k k' : kernel) :
  s == s' -> e == e' ->
  max_overlap k == max_overlap k' -> current_speaker k = current_speaker k' ->
  max_overlap (fold_left (turn_body s e) turns k)
    == max_overlap (fold_left (turn_body s' e') turns k')
  /\ current_speaker (fold_left (turn_body s e) turns k)
     = current_speaker (fold_left (turn_body s' e') turns k').
Proof.
  intros Hs He. revert k k'.
  induction turns as [| t turns IH]; intros k k' Hm Hw; simpl; [tauto |].
  apply IH; unfold turn_body;
    rewrite (py_gt_agree _ _ _ _ (overlap_agree s e s' e' t Hs He) Hm);
    destruct (py_gt (overlap s' e' t) (max_overlap k')); simpl;
    try assumption; try reflexivity.
  apply overlap_agree; assumption.
Qed.

Lemma find_speaker_agree (turns : list track) (seg seg' : segment)
    (k k' : kernel) :
  seg_start seg == seg_start seg' -> seg_end seg == seg_end seg' ->
  current_speaker (find_speaker turns seg k)
  = current_speaker (find_speaker turns seg' k').
Proof.
  intros Hs He. unfold find_speaker.
  apply scan_agree; simpl; try assumption; reflexivity.
Qed.

Lemma combine_loop_snoc (segs : list segment) (seg : segment)
    (turns : list track) (k : kernel) :
  combine_loop (segs ++ [seg]) turns k
  = segment_body turns (combine_loop segs turns k) seg.
Proof. unfold combine_loop. rewrite fold_left_app. reflexivity. Qed.

(** C6.  The speaker assigned to the segment at position [i] depends on the
    start and end of that segment and on the turns only: two runs whose
    segment lists have, at position [i], segments with equal start and equal
    end hold the same [current_speaker] once they have processed position
    [i], whatever the other segments and the kernels they started from. *)
Theorem speaker_depends_on_own_segment_only (segs segs' : list segment)
    (turns : list track) (i : nat) (seg seg' : segment) (k k' : kernel) :
  segs !! i = Some seg -> segs' !! i = Some seg' ->
  seg_start seg == seg_start seg' -> seg_end seg == seg_end seg' ->
  current_speaker (combine_loop (take (S i) segs) turns k)
  = current_speaker (combine_loop (take (S i) segs') turns k').
Proof.
  intros Hi Hi' Hs He.
  rewrite (take_S_r _ _ _ Hi), (take_S_r _ _ _ Hi'), !combine_loop_snoc.
  unfold segment_body. cbn [write_line f_write print current_speaker with_files with_stdout].
  apply find_speaker_agree; assumption.
Qed.

(** ** The loops terminate *)

Lemma step_remaining (turns : list track) (c c' : control * kernel) :
  step turns c = Some c' -> remaining turns c = S (remaining turns c').
Proof.
  destruct c as [[[| seg segs] | seg [| t ts] segs |] k]; simpl;
    intros H; inversion H; subst; unfold remaining, steps_needed; simpl; lia.
Qed.

Lemma step_outcome (turns : list track) (c c' : control * kernel) :
  step turns c = Some c' -> outcome turns c' = outcome turns c.
Proof.
  destruct c as [[[| seg segs] | seg [| t ts] segs |] k]; simpl;
    intros H; inversion H; subst; reflexivity.
Qed.

Lemma step_none (turns : list track) (c : control * kernel) :
  step turns c = None <-> finished c = true.
Proof.
  destruct c as [[[| seg segs] | seg [| t ts] segs |] k]; simpl;
    unfold finished; simpl; split; intros H; congruence.
Qed.

Lemma finished_remaining (turns : list track) (c : control * kernel) :
  finished c = true <-> remaining turns c = 0%nat.
Proof.
  destruct c as [[segs | seg ts segs |] k];
    unfold finished, remaining, steps_needed; simpl; split; intros H;
    try congruence; try lia.
Qed.

Lemma run_remaining (turns : list track) (n : nat) (c : control * kernel) :
  remaining turns (run turns n c) = (remaining turns c - n)%nat.
Proof.
  revert c. induction n as [| n IH]; intros c; simpl; [lia |].
  destruct (step turns c) as [c' |] eqn:E.
  - rewrite IH, (step_remaining turns c c' E). lia.
  - apply step_none in E. apply (finished_remaining turns) in E.
    rewrite E. reflexivity.
Qed.

Lemma run_outcome (turns : list track) (n : nat) (c : control * kernel) :
  outcome turns (run turns n c) = outcome turns c.
Proof.
  revert c. induction n as [| n IH]; intros c; simpl; [reflexivity |].
  destruct (step turns c) as [c' |] eqn:E; [| reflexivity].
  rewrite IH. apply step_outcome, E.
Qed.

(** C7.  Run step by step, the nested loops stop after exactly
    [length segs * (length turns + 2) + 1] steps, and the kernel they stop
    in is the fold over the segments whose body is the fold over the
    turns. *)
Theorem combine_loop_terminates (segs : list segment) (turns : list track)
    (k : kernel) :
  let n := (length segs * (length turns + 2) + 1)%nat in
  run turns n (AtSegments segs, k)
  = (Finished,
     fold_left
       (fun k seg =>
          write_line seg
            (fold_left (turn_body (seg_start seg) (seg_end seg)) turns
               (with_current_speaker None (with_max_overlap 0 k))))
       segs k)
  /\ forall m, (m < n)%nat -> finished (run turns m (AtSegments segs, k)) = false.
Proof.
  intros n. split.
  - pose proof (run_remaining turns n (AtSegments segs, k)) as Hr.
    pose proof (run_outcome turns n (AtSegments segs, k)) as Ho.
    replace (remaining turns (AtSegments segs, k) - n)%nat with 0%nat in Hr
      by (unfold remaining, steps_needed; simpl; lia).
    apply finished_remaining in Hr.
    destruct (run turns n (AtSegments segs, k)) as [[| |] k'];
      try discriminate Hr.
    simpl in Ho. rewrite Ho. reflexivity.
  - intros m Hm. apply not_true_iff_false. intros Hf.
    apply (finished_remaining turns) in Hf. rewrite run_remaining in Hf.
    unfold remaining, steps_needed in Hf. simpl in Hf. lia.
Qed.

(** ** The configuration cell *)

Lemma configuration_run
    (load_dotenv : gmap str str -> gmap str str -> gmap str str) (k : kernel) :
  let k' := with_environ (environment_read load_dotenv k) k in
  configuration load_dotenv k
  = (if truthy (environ k' !! lit "HF_TOKEN")
     then inr (environ k' !! lit "HF_TOKEN")
     else inl (ValueError (lit
            "HF_TOKEN not found in environment variables. Please set it up first.")),
     k').
Proof.
  simpl. unfold configuration, mbind, cell_bind, effect, os_getenv. simpl.
  destruct (truthy _); reflexivity.
Qed.

(** C10.  When the environment the configuration cell reads has no
    [HF_TOKEN] or an empty one, the cell raises [ValueError] and the run of
    the notebook stops there with no model loaded; when it has a non-empty
    [HF_TOKEN], the cell completes with that token. *)
Theorem hf_token_check
    (load_dotenv : gmap str str -> gmap str str -> gmap str str) (k : kernel) :
  let HF_TOKEN := environment_read load_dotenv k !! lit "HF_TOKEN" in
  (HF_TOKEN = None \/ HF_TOKEN = Some [] ->
     exists msg k',
       configuration load_dotenv k = (inl (ValueError msg), k')
       /\ setup load_dotenv k = (inl (ValueError msg), k')
       /\ loaded k' = loaded k)
  /\ (forall token, HF_TOKEN = Some token -> token <> [] ->
        exists k', configuration load_dotenv k = (inr (Some token), k')).
Proof.
  intros HF_TOKEN. split.
  - intros H. do 2 eexists.
    assert (Hc : configuration load_dotenv k
                 = (inl (ValueError (lit
                      "HF_TOKEN not found in environment variables. Please set it up first.")),
                    with_environ (environment_read load_dotenv k) k)).
    { rewrite configuration_run. simpl. fold HF_TOKEN.
      destruct H as [-> | ->]; reflexivity. }
    split; [exact Hc | split].
    + unfold setup, mbind, cell_bind. rewrite Hc. reflexivity.
    + reflexivity.
  - intros token Htok Hne. eexists.
    rewrite configuration_run. simpl. fold HF_TOKEN. rewrite Htok.
    destruct token as [| c token]; [congruence | reflexivity].
Qed.

(** ** The theorems at sample inputs *)

Lemma speaker_has_maximal_overlap_witness :
  Exists (fun t => 0 < overlap (seg_start seg_hello) (seg_end seg_hello) t)
    sample_turns
  /\ assigns_maximal_overlap_speaker sample_turns seg_hello
       (current_speaker (find_speaker sample_turns seg_hello fresh_kernel)).
Proof.
  assert (H : Exists
                (fun t => 0 < overlap (seg_start seg_hello) (seg_end seg_hello) t)
                sample_turns)
    by (apply Exists_cons_hd; reflexivity).
  split; [exact H |].
  exact (proj1 (speaker_has_maximal_overlap sample_turns seg_hello fresh_kernel) H).
Defined.

Lemma output_one_record_per_segment_witness :
  Forall (fun seg => LF ∉ strip (seg_text seg)) [seg_hello; seg_tie; seg_late]
  /\ Forall (fun t => LF ∉ speaker t) sample_turns
  /\ exists content,
       output_file [seg_hello; seg_tie; seg_late] sample_turns fresh_kernel
       = Some content
       /\ file_lines content
          = map (spec_line sample_turns) [seg_hello; seg_tie; seg_late].
Proof.
  assert (Htext : Forall (fun seg => LF ∉ strip (seg_text seg))
                    [seg_hello; seg_tie; seg_late])
    by (repeat constructor; apply no_LF_checked; reflexivity).
  assert (Hturns : Forall (fun t => LF ∉ speaker t) sample_turns)
    by (repeat constructor; apply no_LF_checked; reflexivity).
  split; [exact Htext | split; [exact Hturns |]].
  destruct (output_one_record_per_segment [seg_hello; seg_tie; seg_late]
              sample_turns fresh_kernel) as (content & Hfile & _ & Hlines).
  exists content. split; [exact Hfile | exact (Hlines Htext Hturns)].
Defined.

Lemma overlap_is_rounded_intersection_length_witness :
  seg_start seg_rounding <= seg_end seg_rounding
  /\ turn_start turn_first <= turn_end turn_first
  /\ exists len,
       intersection_length (seg_start seg_rounding) (seg_end seg_rounding)
         (turn_start turn_first) (turn_end turn_first) len
       /\ overlap (seg_start seg_rounding) (seg_end seg_rounding) turn_first
          == round53 len
       /\ Qabs (overlap (seg_start seg_rounding) (seg_end seg_rounding)
                  turn_first - len) * inject_Z (2 ^ 53) <= len.
Proof.
  assert (H1 : seg_start seg_rounding <= seg_end seg_rounding)
    by (vm_compute; discriminate).
  assert (H2 : turn_start turn_first <= turn_end turn_first)
    by (vm_compute; discriminate).
  split; [exact H1 | split; [exact H2 |]].
  exact (proj2 (proj2 (overlap_is_rounded_intersection_length
                         (seg_start seg_rounding) (seg_end seg_rounding)
                         turn_first)) H1 H2).
Defined.

Lemma speaker_depends_on_own_segment_only_witness :
  [seg_hello; seg_tie] !! 1%nat = Some seg_tie
  /\ [seg_late; seg_two_lines; seg_tie] !! 1%nat = Some seg_two_lines
  /\ current_speaker
       (combine_loop (take 2 [seg_late; seg_two_lines; seg_tie]) sample_turns
          fresh_kernel)
     = current_speaker
         (combine_loop
            (take 2 [seg_hello;
                     {| seg_start := 0 # 3; seg_end := 2 # 2;
                        seg_text := lit "other words" |}])
            sample_turns (with_max_overlap 7 fresh_kernel)).
Proof.
  split; [reflexivity | split; [reflexivity |]].
  apply (speaker_depends_on_own_segment_only
           [seg_late; seg_two_lines; seg_tie] _ sample_turns 1 seg_two_lines
           {| seg_start := 0 # 3; seg_end := 2 # 2;
              seg_text := lit "other words" |});
    reflexivity.
Defined.

Lemma combine_loop_terminates_witness :
  (3 < length [seg_hello; seg_tie] * (length sample_turns + 2) + 1)%nat
  /\ finished (run sample_turns 3 (AtSegments [seg_hello; seg_tie], fresh_kernel))
     = false.
Proof.
  assert (H : (3 < length [seg_hello; seg_tie] * (length sample_turns + 2) + 1)%nat)
    by (simpl; lia).
  split; [exact H |].
  exact (proj2 (combine_loop_terminates [seg_hello; seg_tie] sample_turns
                  fresh_kernel) 3%nat H).
Defined.

Lemma first_maximal_turn_wins_witness :
  0 < overlap (seg_start seg_tie) (seg_end seg_tie) turn_A
  /\ current_speaker
       (find_speaker ([turn_C] ++ turn_A :: [turn_B]) seg_tie fresh_kernel)
     = Some (speaker turn_A).
Proof.
  split; [reflexivity |].
  apply (first_maximal_turn_wins [turn_C] [turn_B] turn_A seg_tie fresh_kernel).
  - reflexivity.
  - repeat constructor; discriminate.
  - repeat constructor. discriminate.
Defined.

Lemma no_overlap_leaves_None_witness :
  Forall (touches seg_late) [turn_C]
  /\ current_speaker (segment_body [turn_C] fresh_kernel seg_late) = None
  /\ files (segment_body [turn_C] fresh_kernel seg_late) !! output_path
     = Some (lit "[8.0s -> 9.0s] None: Anyone?" ++ [LF]).
Proof.
  assert (H : Forall (touches seg_late) [turn_C])
    by (repeat constructor; left; reflexivity).
  split; [exact H |].
  exact (no_overlap_leaves_None [turn_C] seg_late fresh_kernel
           (or_intror (or_intror (or_introl H)))).
Defined.

Lemma hf_token_check_witness :
  environment_read no_dotenv fresh_kernel !! lit "HF_TOKEN" = None
  /\ (exists msg k',
        setup no_dotenv fresh_kernel = (inl (ValueError msg), k')
        /\ loaded k' = loaded fresh_kernel)
  /\ lit "hf_token" <> []
  /\ exists k',
       configuration no_dotenv
         (with_environ {[ lit "HF_TOKEN" := lit "hf_token" ]} fresh_kernel)
       = (inr (Some (lit "hf_token")), k').
Proof.
  assert (H : environment_read no_dotenv fresh_kernel !! lit "HF_TOKEN" = None)
    by reflexivity.
  assert (Hne : lit "hf_token" <> []) by discriminate.
  split; [exact H | split; [| split; [exact Hne |]]].
  - destruct (proj1 (hf_token_check no_dotenv fresh_kernel) (or_introl H))
      as (msg & k' & _ & Hsetup & Hloaded).
    exists msg, k'. split; [exact Hsetup | exact Hloaded].
  - apply (proj2 (hf_token_check no_dotenv
                    (with_environ {[ lit "HF_TOKEN" := lit "hf_token" ]}
                       fresh_kernel)) (lit "hf_token"));
      [vm_compute; reflexivity | exact Hne].
Defined.

(** * Further properties of the code *)

(** ** The overlap *)

Lemma overlap_cases (s1 e1 : Q) (t : track) :
  let d := Qmin e1 (turn_end t) - Qmax s1 (turn_start t) in
  (d <= 0 /\ overlap s1 e1 t == 0)
  \/ (0 < d /\ 0 < round53 d /\ overlap s1 e1 t == round53 d).
Proof.
  intros d. pose proof (overlap_value s1 e1 t) as Hv. fold d in Hv.
  destruct (Qlt_le_dec 0 d) as [H | H].
  - right. assert (Hr : 0 < round53 d) by (apply (round53_sign d); exact H).
    split; [exact H | split; [exact Hr |]].
    rewrite Hv. apply Q.max_r. lra.
  - left. split; [exact H |]. rewrite Hv. apply Q.max_l.
    apply round53_nonpos. exact H.
Qed.

(** X1.  The overlap is at most the length of the segment and at most the
    length of the turn, each as the subtraction of floats gives it, for
    intervals that do not end before they start. *)
Theorem overlap_at_most_lengths (s1 e1 : Q) (t : track) :
  s1 <= e1 -> turn_start t <= turn_end t ->
  overlap s1 e1 t <= float_sub e1 s1
  /\ overlap s1 e1 t <= float_sub (turn_end t) (turn_start t).
Proof.
  intros H1 H2. unfold float_sub.
  pose proof (Q.le_min_l e1 (turn_end t)).
  pose proof (Q.le_min_r e1 (turn_end t)).
  pose proof (Q.le_max_l s1 (turn_start t)).
  pose proof (Q.le_max_r s1 (turn_start t)).
  pose proof (round53_nonneg (e1 - s1) ltac:(lra)).
  pose proof (round53_nonneg (turn_end t - turn_start t) ltac:(lra)).
  destruct (overlap_cases s1 e1 t) as [[_ ->] | (_ & _ & ->)].
  - split; assumption.
  - split; apply round53_mono; lra.
Qed.

(** X2.  The overlap is positive exactly when each interval starts before
    both intervals end: the two intervals share more than a point. *)
Theorem overlap_positive_iff (s1 e1 : Q) (t : track) :
  0 < overlap s1 e1 t
  <-> s1 < e1 /\ turn_start t < turn_end t
      /\ s1 < turn_end t /\ turn_start t < e1.
Proof.
  assert (Hd : 0 < Qmin e1 (turn_end t) - Qmax s1 (turn_start t)
               <-> s1 < e1 /\ turn_start t < turn_end t
                   /\ s1 < turn_end t /\ turn_start t < e1).
  { transitivity (Qmax s1 (turn_start t) < Qmin e1 (turn_end t)).
    - split; intros; lra.
    - rewrite Q.max_lub_lt_iff, !Q.min_glb_lt_iff. tauto. }
  rewrite <- Hd.
  destruct (overlap_cases s1 e1 t) as [[Hle ->] | (Hlt & Hr & ->)];
    split; intros; lra.
Qed.

(** X3.  A turn that spans the whole segment overlaps it for the length of
    the segment, as the subtraction of floats gives it. *)
Theorem overlap_of_covering_turn (seg : segment) (t : track) :
  seg_start seg <= seg_end seg -> covers t seg ->
  overlap (seg_start seg) (seg_end seg) t
  == float_sub (seg_end seg) (seg_start seg).
Proof.
  intros Hseg [Hs He]. rewrite overlap_value. unfold float_sub.
  rewrite (round53_equal
             (Qmin (seg_end seg) (turn_end t) - Qmax (seg_start seg) (turn_start t))
             (seg_end seg - seg_start seg))
    by (rewrite (Q.min_l _ _ He), (Q.max_l _ _ Hs); reflexivity).
  apply Q.max_r. apply round53_nonneg. lra.
Qed.

(** ** The matching loop *)

(** X5.  The two globals stay in step, the overlaps being the ones the loop
    computes.  After the inner loop [max_overlap] is not negative and no
    turn's overlap exceeds it; [current_speaker] is
    [None] exactly when [max_overlap] is zero, and otherwise it is the label
    of a turn of the list whose overlap is [max_overlap]. *)
Theorem loop_globals_in_step (turns : list track) (seg : segment) (k : kernel) :
  let ov := overlap (seg_start seg) (seg_end seg) in
  let k' := find_speaker turns seg k in
  0 <= max_overlap k'
  /\ Forall (fun t => ov t <= max_overlap k') turns
  /\ (current_speaker k' = None <-> max_overlap k' == 0)
  /\ (forall who, current_speaker k' = Some who ->
        exists t, t ∈ turns /\ speaker t = who /\ max_overlap k' = ov t).
Proof.
  intros ov k'.
  destruct (find_speaker_cases turns seg k)
    as [(Hw & Hm & Hall) | (pre & t & post & -> & Hm & Hw & Hpos & Hpre & Hpost)];
    subst ov k'; cbv beta in *; rewrite Hw, Hm.
  - split; [apply Qle_refl | split; [exact Hall | split]].
    + split; intros _; reflexivity.
    + intros who H. discriminate H.
  - split; [lra | split; [| split]].
    + apply Forall_app. split; [| constructor; [apply Qle_refl | exact Hpost]].
      eapply Forall_impl; [exact Hpre |]. intros ? ?. apply Qlt_le_weak. assumption.
    + split; intros H; [discriminate H | lra].
    + intros who [= <-]. exists t. split; [| split; reflexivity].
      apply elem_of_app. right. apply elem_of_cons. left. reflexivity.
Qed.

(** X6.  A turn whose positive overlap, as the loop computes it, is greater
    than that of every turn bearing another label decides the speaker, in
    whatever order the turns come. *)
Theorem dominant_speaker_any_order (turns turns' : list track) (t : track)
    (seg : segment) (k : kernel) :
  let ov := overlap (seg_start seg) (seg_end seg) in
  turns ≡ₚ turns' -> t ∈ turns -> 0 < ov t ->
  (forall t', t' ∈ turns -> speaker t' <> speaker t -> ov t' < ov t) ->
  current_speaker (find_speaker turns' seg k) = Some (speaker t).
Proof.
  intros ov Hperm Hin Hpos Hdom.
  rewrite Hperm in Hin.
  destruct (find_speaker_cases turns' seg k)
    as [(_ & _ & Hall) | (pre & t2 & post & E & _ & Hw & _ & Hpre & Hpost)].
  - rewrite Forall_forall in Hall. specialize (Hall t Hin). simpl in Hall.
    fold ov in Hall. lra.
  - rewrite Hw. f_equal.
    destruct (decide (speaker t2 = speaker t)) as [Heq | Hne]; [exact Heq |].
    exfalso.
    assert (Hin2 : t2 ∈ turns).
    { rewrite Hperm, E. apply elem_of_app. right. apply elem_of_cons. left. reflexivity. }
    pose proof (Hdom t2 Hin2 Hne) as Hlt.
    assert (Hle : ov t <= ov t2).
    { rewrite E in Hin. apply elem_of_app in Hin as [Hin | Hin].
      - rewrite Forall_forall in Hpre. apply Qlt_le_weak, Hpre, Hin.
      - apply elem_of_cons in Hin as [-> | Hin]; [apply Qle_refl |].
        rewrite Forall_forall in Hpost. apply Hpost, Hin. }
    lra.
Qed.

Lemma scan_overlapping (seg : segment) (turns : list track) (k : kernel) :
  0 <= max_overlap k ->
  fold_left (turn_body (seg_start seg) (seg_end seg)) (overlapping turns seg) k
  = fold_left (turn_body (seg_start seg) (seg_end seg)) turns k.
Proof.
  revert k. induction turns as [| t turns IH]; intros k Hk; simpl; [reflexivity |].
  destruct (py_gt (overlap (seg_start seg) (seg_end seg) t) 0) eqn:E; simpl.
  - apply IH.
    destruct (turn_body_cases (seg_start seg) (seg_end seg) k t)
      as [[_ ->] | [Hlt ->]]; simpl; [exact Hk | lra].
  - apply py_gt_false in E.
    rewrite (turn_body_keep _ _ k t) by lra. apply IH, Hk.
Qed.

(** X7.  Turns that do not overlap the segment play no part: the loop run on
    the overlapping turns alone ends in the same state. *)
Theorem non_overlapping_turns_play_no_part (turns : list track)
    (seg : segment) (k : kernel) :
  find_speaker (overlapping turns seg) seg k = find_speaker turns seg k.
Proof. unfold find_speaker. apply scan_overlapping. simpl. apply Qle_refl. Qed.

(** X8.  A segment of positive length that some turn spans is never left
    without a speaker: it gets the label of a turn whose overlap is the
    length of the segment, as the subtraction of floats gives it. *)
Theorem covered_segment_is_labelled (turns : list track) (seg : segment)
    (t : track) (k : kernel) :
  seg_start seg < seg_end seg -> t ∈ turns -> covers t seg ->
  exists t', t' ∈ turns
    /\ current_speaker (find_speaker turns seg k) = Some (speaker t')
    /\ overlap (seg_start seg) (seg_end seg) t'
       == float_sub (seg_end seg) (seg_start seg).
Proof.
  intros Hlen Hin [Hs He]. unfold float_sub.
  set (len := round53 (seg_end seg - seg_start seg)).
  assert (Hpos : 0 < len) by (apply (round53_sign _); lra).
  assert (Hfull : overlap (seg_start seg) (seg_end seg) t == len).
  { rewrite overlap_value.
    rewrite (round53_equal
               (Qmin (seg_end seg) (turn_end t)
                - Qmax (seg_start seg) (turn_start t))
               (seg_end seg - seg_start seg))
      by (rewrite (Q.min_l _ _ He), (Q.max_l _ _ Hs); reflexivity).
    apply Q.max_r. apply Qlt_le_weak, Hpos. }
  destruct (find_speaker_cases turns seg k)
    as [(_ & _ & Hall) | (pre & t2 & post & E & _ & Hw & _ & Hpre & Hpost)].
  - rewrite Forall_forall in Hall. specialize (Hall t Hin). simpl in Hall. lra.
  - exists t2. split; [| split; [exact Hw |]].
    + rewrite E. apply elem_of_app. right. apply elem_of_cons. left. reflexivity.
    + apply Qle_antisym.
      * pose proof (Q.le_min_l (seg_end seg) (turn_end t2)).
        pose proof (Q.le_max_l (seg_start seg) (turn_start t2)).
        destruct (overlap_cases (seg_start seg) (seg_end seg) t2)
          as [[_ ->] | (_ & _ & ->)]; [lra |].
        apply round53_mono. lra.
      * rewrite <- Hfull. rewrite E in Hin.
        apply elem_of_app in Hin as [Hin | Hin].
        -- rewrite Forall_forall in Hpre. apply Qlt_le_weak, Hpre, Hin.
        -- apply elem_of_cons in Hin as [-> | Hin]; [apply Qle_refl |].
           rewrite Forall_forall in Hpost. apply Hpost, Hin.
Qed.

Lemma round53_near (x : Q) :
  0 <= x ->
  (x - round53 x) * inject_Z (2 ^ 53) <= x
  /\ (round53 x - x) * inject_Z (2 ^ 53) <= x.
Proof.
  intros Hx. pose proof (round53_error x) as He.
  rewrite (Qabs_pos x Hx) in He.
  assert (Hc : 0 <= inject_Z (2 ^ 53)) by discriminate.
  split.
  - apply Qle_trans with (Qabs (round53 x - x) * inject_Z (2 ^ 53)); [| exact He].
    apply Qmult_le_compat_r; [| exact Hc].
    rewrite <- (Qabs_opp (round53 x - x)).
    apply Qle_trans with (- (round53 x - x)); [lra | apply Qle_Qabs].
  - apply Qle_trans with (Qabs (round53 x - x) * inject_Z (2 ^ 53)); [| exact He].
    apply Qmult_le_compat_r; [apply Qle_Qabs | exact Hc].
Qed.

(** X18.  In exact terms the turn chosen is the best up to one rounding: when
    the loop assigns a speaker, a turn of the list bears that label whose
    shared time with the segment falls short of the shared time of any
    other turn by at most the sum of the two over [2^53]. *)
Theorem assigned_turn_nearly_longest (turns : list track) (seg : segment)
    (k : kernel) (who : str) :
  let shared := exact_overlap (seg_start seg) (seg_end seg) in
  current_speaker (find_speaker turns seg k) = Some who ->
  exists t, t ∈ turns /\ speaker t = who /\ 0 < shared t
    /\ Forall (fun t' => (shared t' - shared t) * inject_Z (2 ^ 53)
                         <= shared t + shared t') turns.
Proof.
  intros shared Hwho.
  destruct (find_speaker_cases turns seg k)
    as [(Hw & _) | (pre & t & post & E & _ & Hw & Hpos & Hpre & Hpost)];
    [congruence |].
  assert (Hmax : Forall (fun t' => overlap (seg_start seg) (seg_end seg) t'
                                   <= overlap (seg_start seg) (seg_end seg) t)
                   turns).
  { rewrite E. apply Forall_app. split.
    - eapply Forall_impl; [exact Hpre |]. intros ? ?. apply Qlt_le_weak. assumption.
    - constructor; [apply Qle_refl | exact Hpost]. }
  exists t. split; [| split; [congruence | split]].
  - rewrite E. apply elem_of_app. right. apply elem_of_cons. left. reflexivity.
  - rewrite overlap_rounds_exact in Hpos. apply (round53_sign _). exact Hpos.
  - eapply Forall_impl; [exact Hmax |]. intros t' Hle. simpl in Hle.
    rewrite !overlap_rounds_exact in Hle. fold (shared t) (shared t') in Hle.
    assert (H0 : 0 <= shared t) by apply Q.le_max_l.
    assert (H0' : 0 <= shared t') by apply Q.le_max_l.
    destruct (round53_near (shared t) H0) as [_ Hup].
    destruct (round53_near (shared t') H0') as [Hlow _].
    assert (Hc : 0 <= inject_Z (2 ^ 53)) by discriminate.
    assert (Hmid : (round53 (shared t') - round53 (shared t)) * inject_Z (2 ^ 53)
                   <= 0).
    { rewrite <- (Qmult_0_l (inject_Z (2 ^ 53))).
      apply Qmult_le_compat_r; [lra | exact Hc]. }
    set (c := inject_Z (2 ^ 53)) in *.
    assert (Hsum : (shared t' - shared t) * c
                   == (shared t' - round53 (shared t')) * c
                      + (round53 (shared t') - round53 (shared t)) * c
                      + (round53 (shared t) - shared t) * c) by ring.
    rewrite Hsum. lra.
Qed.

(** ** The combine cell *)

Lemma segment_body_frame (turns : list track) (seg : segment) (k : kernel) :
  environ (segment_body turns k seg) = environ k
  /\ loaded (segment_body turns k seg) = loaded k
  /\ forall path, path <> output_path ->
       files (segment_body turns k seg) !! path = files k !! path.
Proof.
  unfold segment_body, write_line, f_write, print. simpl.
  destruct (find_speaker_frame turns seg k) as (-> & -> & _ & ->).
  split; [reflexivity | split; [reflexivity |]].
  intros path Hne. apply lookup_insert_ne. congruence.
Qed.

Lemma combine_loop_frame (segs : list segment) (turns : list track)
    (k : kernel) :
  environ (combine_loop segs turns k) = environ k
  /\ loaded (combine_loop segs turns k) = loaded k
  /\ forall path, path <> output_path ->
       files (combine_loop segs turns k) !! path = files k !! path.
Proof.
  unfold combine_loop. revert k.
  induction segs as [| seg segs IH]; intros k; simpl.
  - repeat split.
  - destruct (IH (segment_body turns k seg)) as (-> & -> & Hf).
    destruct (segment_body_frame turns seg k) as (-> & -> & Hf').
    split; [reflexivity | split; [reflexivity |]].
    intros path Hne. rewrite (Hf path Hne). apply Hf', Hne.
Qed.

Lemma combine_frame (segs : list segment) (turns : list track) (k : kernel) :
  environ (combine segs turns k) = environ k
  /\ loaded (combine segs turns k) = loaded k
  /\ forall path, path <> output_path ->
       files (combine segs turns k) !! path = files k !! path.
Proof.
  unfold combine. cbn [print with_stdout environ loaded files].
  destruct (combine_loop_frame segs turns
              (open_w output_path
                 (print (lit "Combining transcription with speaker information...") k)))
    as (-> & -> & Hf).
  split; [reflexivity | split; [reflexivity |]].
  intros path Hne. rewrite (Hf path Hne). simpl.
  apply lookup_insert_ne. congruence.
Qed.

(** X9.  The combine cell changes one file only: a file at another path is
    there afterwards exactly when it was there before, with the same text,
    and the environment and the loaded models are as before. *)
Theorem combine_changes_one_file (segs : list segment) (turns : list track)
    (k : kernel) :
  environ (combine segs turns k) = environ k
  /\ loaded (combine segs turns k) = loaded k
  /\ delete output_path (files (combine segs turns k))
     = delete output_path (files k).
Proof.
  destruct (combine_frame segs turns k) as (He & Hl & Hf).
  split; [exact He | split; [exact Hl |]].
  apply map_eq. intros path.
  destruct (decide (path = output_path)) as [-> | Hne].
  - rewrite !lookup_delete_eq. reflexivity.
  - rewrite !lookup_delete_ne by congruence. apply Hf, Hne.
Qed.

(** X10.  The file written for a list of segments followed by another is the
    file written for the first followed by the file written for the second,
    the turns being the same. *)
Theorem output_of_appended_segments (segs1 segs2 : list segment)
    (turns : list track) (k k1 k2 : kernel) :
  exists text1 text2,
    output_file segs1 turns k1 = Some text1
    /\ output_file segs2 turns k2 = Some text2
    /\ output_file (segs1 ++ segs2) turns k = Some (text1 ++ text2).
Proof.
  exists (concat (map (line_for turns) segs1)),
         (concat (map (line_for turns) segs2)).
  rewrite !output_file_content, map_app, concat_app. repeat split.
Qed.

Lemma lstrip_keeps (s : str) :
  (forall c, head s = Some c -> isspace c = false) -> lstrip s = s.
Proof.
  destruct s as [| c s]; simpl; [reflexivity |].
  intros H. rewrite (H c eq_refl). reflexivity.
Qed.

(** A text that neither starts nor ends with whitespace comes back from
    [strip] when a line feed is put after it. *)
Lemma strip_line_feed (s : str) :
  (forall c, head s = Some c -> isspace c = false) ->
  (forall c, last s = Some c -> isspace c = false) ->
  s <> [] -> strip (s ++ [LF]) = s.
Proof.
  intros Hhd Hlast Hne. unfold strip, rstrip.
  rewrite (lstrip_keeps (s ++ [LF])).
  - rewrite rev_app_distr. simpl.
    rewrite (lstrip_keeps (rev s)); [apply rev_involutive |].
    intros c Hc. apply Hlast. rewrite <- Hc, rev_alt. symmetry. apply head_reverse.
  - destruct s as [| c s]; [congruence | exact Hhd].
Qed.

Lemma printed_line_written (turns : list track) (seg : segment) :
  strip (seg_text seg) <> [] -> printed_line turns seg = line_for turns seg.
Proof.
  intros Hne. unfold printed_line. rewrite line_for_spec_line. f_equal.
  destruct (strip_spec (seg_text seg)) as (_ & _ & _ & _ & _ & _ & Hlast).
  apply strip_line_feed.
  - intros c Hc. unfold spec_line in Hc. simpl in Hc. injection Hc as <-. reflexivity.
  - intros c Hc. apply Hlast. unfold spec_line in Hc.
    rewrite !app_assoc in Hc. rewrite last_app in Hc.
    destruct (last (strip (seg_text seg))) eqn:E; [exact Hc |].
    apply last_None in E. contradiction.
  - unfold spec_line. simpl. discriminate.
Qed.

(** X11.  The console mirrors the file: when no segment's text is blank, the
    cell prints, between its two notices, exactly the text it writes to the
    output file. *)
Theorem console_mirrors_file (segs : list segment) (turns : list track)
    (k : kernel) :
  Forall (fun seg => strip (seg_text seg) <> []) segs ->
  exists text,
    output_file segs turns k = Some text
    /\ stdout (combine segs turns k)
       = stdout k
           ++ (lit "Combining transcription with speaker information..." ++ [LF])
           ++ text
           ++ (LF :: lit "Transcription with speaker identification saved to '"
                  ++ output_path ++ lit "'") ++ [LF].
Proof.
  intros Hall. eexists. split; [apply output_file_content |].
  rewrite combine_stdout. do 3 f_equal.
  induction Hall as [| seg segs Hseg _ IH]; simpl; [reflexivity |].
  rewrite IH, (printed_line_written turns seg Hseg). reflexivity.
Qed.

(** ** The other cells and the whole notebook *)

Lemma show_turns (turns : list track) (k : kernel) :
  let k' := fold_left (fun k item => print (turn_line item) k) turns k in
  stdout k' = stdout k ++ concat (map (fun t => turn_line t ++ [LF]) turns)
  /\ files k' = files k /\ environ k' = environ k /\ loaded k' = loaded k
  /\ max_overlap k' = max_overlap k
  /\ current_speaker k' = current_speaker k.
Proof.
  revert k. induction turns as [| t turns IH]; intros k;
    cbn [fold_left map concat].
  - cbv zeta. rewrite app_nil_r. repeat split.
  - destruct (IH (print (turn_line t) k)) as (-> & -> & -> & -> & -> & ->).
    cbn [print with_stdout stdout files environ loaded max_overlap
         current_speaker].
    rewrite <- !app_assoc. repeat split.
Qed.

Lemma process_audio_frame (turns : list track) (k : kernel) :
  files (process_audio turns k) = files k
  /\ environ (process_audio turns k) = environ k
  /\ loaded (process_audio turns k) = loaded k.
Proof.
  unfold process_audio.
  destruct (show_turns turns
              (print (LF :: lit "Speaker segments:")
                 (print (lit "Processing speaker diarization...") k)))
    as (_ & -> & -> & -> & _).
  repeat split.
Qed.

(** X14.  The audio cell displays one line per speaker turn, in the order of
    the turns and after its two notices, each
    [start=<start>s stop=<end>s speaker_<label>]; it changes nothing but the
    console. *)
Theorem process_audio_lists_turns (turns : list track) (k : kernel) :
  let k' := process_audio turns k in
  stdout k'
  = stdout k ++ (lit "Processing speaker diarization..." ++ [LF])
      ++ ((LF :: lit "Speaker segments:") ++ [LF])
      ++ concat (map (fun t =>
                        lit "start=" ++ format_1f (turn_start t)
                          ++ lit "s stop=" ++ format_1f (turn_end t)
                          ++ lit "s speaker_" ++ speaker t ++ [LF]) turns)
  /\ files k' = files k /\ environ k' = environ k /\ loaded k' = loaded k.
Proof.
  intros k'. subst k'. unfold process_audio.
  destruct (show_turns turns
              (print (LF :: lit "Speaker segments:")
                 (print (lit "Processing speaker diarization...") k)))
    as (-> & -> & -> & -> & _).
  cbn [print with_stdout stdout files environ loaded].
  split; [| repeat split].
  rewrite (map_ext (fun t => turn_line t ++ [LF])
             (fun t => lit "start=" ++ format_1f (turn_start t)
                         ++ lit "s stop=" ++ format_1f (turn_end t)
                         ++ lit "s speaker_" ++ speaker t ++ [LF])).
  - rewrite <- !app_assoc. reflexivity.
  - intros t. unfold turn_line. rewrite <- !app_assoc. reflexivity.
Qed.

Lemma paths_differ : raw_path <> output_path.
Proof. exact (proj1 (bool_decide_eq_false (raw_path = output_path)) eq_refl). Qed.

Lemma transcribe_files (text : str) (k : kernel) :
  files (transcribe text k) = <[raw_path := text]> (files k)
  /\ environ (transcribe text k) = environ k
  /\ loaded (transcribe text k) = loaded k.
Proof.
  unfold transcribe, f_write, open_w, print. simpl.
  rewrite lookup_insert_eq. simpl. rewrite insert_insert_eq. repeat split.
Qed.

(** X15.  After the transcription cell and the combine cell the raw
    transcription holds [result['text']], whatever it held before, the
    combine cell has not touched it, the second file holds the lines of the
    segments, and every other file is as it was. *)
Theorem two_output_files (text : str) (segs : list segment)
    (turns : list track) (k : kernel) :
  let k' := combine segs turns (transcribe text k) in
  files k' !! raw_path = Some text
  /\ files k' !! output_path = Some (concat (map (line_for turns) segs))
  /\ forall path, path <> raw_path -> path <> output_path ->
       files k' !! path = files k !! path.
Proof.
  intros k'. subst k'.
  destruct (combine_frame segs turns (transcribe text k))
    as (_ & _ & Hf).
  destruct (transcribe_files text k) as (Ht & _).
  split; [| split].
  - rewrite (Hf raw_path paths_differ), Ht. apply lookup_insert_eq.
  - apply output_file_content.
  - intros path Hraw Hout. rewrite (Hf path Hout), Ht.
    apply lookup_insert_ne. congruence.
Qed.

Section WholeNotebook.

Variable load_dotenv : gmap str str -> gmap str str -> gmap str str.
Variable cuda_available : bool.
Variable device_name : str.
Variable diarization_list : list track.
Variable result_text : str.
Variable result_segments : list segment.
Variables time_models time_audio time_transcribe : str.

Local Abbreviation notebook :=
  (run_all load_dotenv cuda_available device_name diarization_list
     result_text result_segments time_models time_audio time_transcribe).

Lemma select_device_frame (k : kernel) :
  exists device k',
    select_device cuda_available device_name k = (inr device, k')
    /\ files k' = files k /\ environ k' = environ k /\ loaded k' = loaded k.
Proof.
  unfold select_device. destruct cuda_available;
    do 2 eexists; (split; [reflexivity | repeat split]).
Qed.

(** The notebook once the configuration cell has let it pass. *)
Lemma notebook_after_configuration (k k0 : kernel) (token : option str) :
  configuration load_dotenv k = (inr token, k0) ->
  exists k',
    notebook k = (inr tt, k')
    /\ environ k' = environ k0
    /\ loaded k'
       = loaded k0 ++ [lit "large-v3"; lit "pyannote/speaker-diarization-3.1"]
    /\ files k' !! raw_path = Some result_text
    /\ files k' !! output_path
       = Some (concat (map (line_for diarization_list) result_segments))
    /\ forall path, path <> raw_path -> path <> output_path ->
         files k' !! path = files k0 !! path.
Proof.
  intros Hc. unfold run_all, mbind, cell_bind. rewrite Hc.
  unfold model_initialization, load_model, effect, mbind, cell_bind.
  set (k1 := time_report time_models _).
  destruct (select_device_frame k1) as (device & k2 & -> & Hf2 & He2 & Hl2).
  set (k3 := time_report time_audio (process_audio diarization_list k2)).
  set (k4 := time_report time_transcribe (transcribe result_text k3)).
  eexists. split; [reflexivity |].
  destruct (combine_frame result_segments diarization_list k4) as (-> & -> & Hf).
  destruct (process_audio_frame diarization_list k2) as (Hf3 & He3 & Hl3).
  destruct (transcribe_files result_text k3) as (Hf4 & He4 & Hl4).
  assert (Hfiles : files k4 = <[raw_path := result_text]> (files k0)).
  { subst k4. cbn [time_report with_stdout files]. rewrite Hf4.
    subst k3. cbn [time_report with_stdout files]. rewrite Hf3, Hf2. reflexivity. }
  split; [| split; [| split; [| split]]].
  - subst k4 k3. cbn [time_report with_stdout environ].
    rewrite He4. cbn [time_report with_stdout environ]. rewrite He3, He2. reflexivity.
  - subst k4 k3. cbn [time_report with_stdout loaded].
    rewrite Hl4. cbn [time_report with_stdout loaded]. rewrite Hl3, Hl2.
    subst k1. cbn [time_report with_stdout loaded print with_loaded].
    rewrite <- app_assoc. reflexivity.
  - rewrite (Hf raw_path paths_differ), Hfiles. apply lookup_insert_eq.
  - apply output_file_content.
  - intros path Hraw Hout. rewrite (Hf path Hout), Hfiles.
    apply lookup_insert_ne. congruence.
Qed.

(** X16.  Without a token nothing happens: when the environment read has no
    [HF_TOKEN] or an empty one, the run of the whole notebook ends in
    [ValueError] with no file created, truncated or changed, nothing
    printed and no model loaded. *)
Theorem notebook_without_token (k : kernel) :
  let HF_TOKEN := environment_read load_dotenv k !! lit "HF_TOKEN" in
  HF_TOKEN = None \/ HF_TOKEN = Some [] ->
  exists msg k',
    notebook k = (inl (ValueError msg), k')
    /\ files k' = files k /\ stdout k' = stdout k /\ loaded k' = loaded k.
Proof.
  intros HF_TOKEN H. do 2 eexists.
  unfold run_all, mbind, cell_bind. rewrite configuration_run. simpl.
  fold HF_TOKEN. destruct H as [-> | ->]; simpl; repeat split.
Qed.

(** X17.  With a token the notebook runs to its end: Whisper is loaded, then
    the pipeline; the raw transcription holds [result['text']] and the
    second file one line per segment, whatever the two files held before;
    every other file is as it was. *)
Theorem notebook_with_token (k : kernel) (token : str) :
  environment_read load_dotenv k !! lit "HF_TOKEN" = Some token ->
  token <> [] ->
  exists k',
    notebook k = (inr tt, k')
    /\ loaded k'
       = loaded k ++ [lit "large-v3"; lit "pyannote/speaker-diarization-3.1"]
    /\ files k' !! raw_path = Some result_text
    /\ files k' !! output_path
       = Some (concat (map (line_for diarization_list) result_segments))
    /\ forall path, path <> raw_path -> path <> output_path ->
         files k' !! path = files k !! path.
Proof.
  intros Htok Hne.
  destruct (notebook_after_configuration k
              (with_environ (environment_read load_dotenv k) k) (Some token))
    as (k' & Hrun & _ & Hl & Hraw & Hout & Hother).
  { rewrite configuration_run. simpl. rewrite Htok.
    destruct token; [congruence | reflexivity]. }
  exists k'. repeat split; assumption.
Qed.

End WholeNotebook.

(** ** The further theorems at sample inputs *)

Lemma overlap_at_most_lengths_witness :
  seg_start seg_rounding <= seg_end seg_rounding
  /\ turn_start turn_first <= turn_end turn_first
  /\ overlap (seg_start seg_rounding) (seg_end seg_rounding) turn_first
     <= float_sub (seg_end seg_rounding) (seg_start seg_rounding)
  /\ overlap (seg_start seg_rounding) (seg_end seg_rounding) turn_first
     <= float_sub (turn_end turn_first) (turn_start turn_first).
Proof.
  assert (H1 : seg_start seg_rounding <= seg_end seg_rounding)
    by (vm_compute; discriminate).
  assert (H2 : turn_start turn_first <= turn_end turn_first)
    by (vm_compute; discriminate).
  split; [exact H1 | split; [exact H2 |]].
  exact (overlap_at_most_lengths (seg_start seg_rounding) (seg_end seg_rounding)
           turn_first H1 H2).
Defined.

Lemma overlap_of_covering_turn_witness :
  seg_start seg_hello <= seg_end seg_hello /\ covers turn_D seg_hello
  /\ overlap (seg_start seg_hello) (seg_end seg_hello) turn_D
     == float_sub (seg_end seg_hello) (seg_start seg_hello).
Proof.
  assert (H1 : seg_start seg_hello <= seg_end seg_hello) by discriminate.
  assert (H2 : covers turn_D seg_hello) by (split; discriminate).
  split; [exact H1 | split; [exact H2 |]].
  exact (overlap_of_covering_turn seg_hello turn_D H1 H2).
Defined.

Lemma dominant_speaker_any_order_witness :
  sample_turns ≡ₚ [turn_B; turn_A; turn_C]
  /\ turn_B ∈ sample_turns
  /\ 0 < overlap (seg_start seg_hello) (seg_end seg_hello) turn_B
  /\ current_speaker (find_speaker [turn_B; turn_A; turn_C] seg_hello fresh_kernel)
     = Some (speaker turn_B).
Proof.
  assert (Hperm : sample_turns ≡ₚ [turn_B; turn_A; turn_C]) by apply perm_swap.
  assert (Hin : turn_B ∈ sample_turns)
    by (apply list_elem_of_further, list_elem_of_here).
  assert (Hpos : 0 < overlap (seg_start seg_hello) (seg_end seg_hello) turn_B)
    by reflexivity.
  split; [exact Hperm | split; [exact Hin | split; [exact Hpos |]]].
  apply (dominant_speaker_any_order sample_turns [turn_B; turn_A; turn_C]
           turn_B seg_hello fresh_kernel Hperm Hin Hpos).
  intros t' Ht' Hne.
  apply elem_of_cons in Ht' as [-> | Ht']; [reflexivity |].
  apply elem_of_cons in Ht' as [-> | Ht']; [contradiction |].
  apply elem_of_cons in Ht' as [-> | Ht']; [reflexivity |].
  apply elem_of_nil in Ht'. contradiction.
Defined.

Lemma covered_segment_is_labelled_witness :
  seg_start seg_hello < seg_end seg_hello
  /\ turn_D ∈ [turn_A; turn_D] /\ covers turn_D seg_hello
  /\ exists t', t' ∈ [turn_A; turn_D]
       /\ current_speaker (find_speaker [turn_A; turn_D] seg_hello fresh_kernel)
          = Some (speaker t')
       /\ overlap (seg_start seg_hello) (seg_end seg_hello) t'
          == float_sub (seg_end seg_hello) (seg_start seg_hello).
Proof.
  assert (H1 : seg_start seg_hello < seg_end seg_hello) by reflexivity.
  assert (H2 : turn_D ∈ [turn_A; turn_D])
    by (apply list_elem_of_further, list_elem_of_here).
  assert (H3 : covers turn_D seg_hello) by (split; discriminate).
  split; [exact H1 | split; [exact H2 | split; [exact H3 |]]].
  exact (covered_segment_is_labelled [turn_A; turn_D] seg_hello turn_D
           fresh_kernel H1 H2 H3).
Defined.

Lemma console_mirrors_file_witness :
  Forall (fun seg => strip (seg_text seg) <> []) [seg_hello; seg_late]
  /\ exists text,
       output_file [seg_hello; seg_late] sample_turns fresh_kernel = Some text
       /\ stdout (combine [seg_hello; seg_late] sample_turns fresh_kernel)
          = stdout fresh_kernel
              ++ (lit "Combining transcription with speaker information..."
                    ++ [LF])
              ++ text
              ++ (LF :: lit "Transcription with speaker identification saved to '"
                     ++ output_path ++ lit "'") ++ [LF].
Proof.
  assert (H : Forall (fun seg => strip (seg_text seg) <> [])
                [seg_hello; seg_late])
    by (repeat constructor; discriminate).
  split; [exact H |].
  exact (console_mirrors_file [seg_hello; seg_late] sample_turns fresh_kernel H).
Defined.

Lemma notebook_without_token_witness :
  environment_read no_dotenv fresh_kernel !! lit "HF_TOKEN" = None
  /\ exists msg k',
       run_all no_dotenv false [] sample_turns (lit " Hello there. Anyone?")
         [seg_hello; seg_late] [] [] [] fresh_kernel
       = (inl (ValueError msg), k')
       /\ files k' = files fresh_kernel /\ stdout k' = stdout fresh_kernel
       /\ loaded k' = loaded fresh_kernel.
Proof.
  assert (H : environment_read no_dotenv fresh_kernel !! lit "HF_TOKEN" = None)
    by reflexivity.
  split; [exact H |].
  exact (notebook_without_token no_dotenv false [] sample_turns
           (lit " Hello there. Anyone?") [seg_hello; seg_late] [] [] []
           fresh_kernel (or_introl H)).
Defined.

Lemma notebook_with_token_witness :
  environment_read no_dotenv kernel_with_token !! lit "HF_TOKEN"
  = Some (lit "hf_token")
  /\ lit "hf_token" <> []
  /\ exists k',
       run_all no_dotenv false [] sample_turns (lit " Hello there. Anyone?")
         [seg_hello; seg_late] [] [] [] kernel_with_token
       = (inr tt, k')
       /\ loaded k'
          = loaded kernel_with_token
              ++ [lit "large-v3"; lit "pyannote/speaker-diarization-3.1"]
       /\ files k' !! raw_path = Some (lit " Hello there. Anyone?")
       /\ files k' !! output_path
          = Some (concat (map (line_for sample_turns) [seg_hello; seg_late]))
       /\ forall path, path <> raw_path -> path <> output_path ->
            files k' !! path = files kernel_with_token !! path.
Proof.
  assert (H : environment_read no_dotenv kernel_with_token !! lit "HF_TOKEN"
              = Some (lit "hf_token")) by (vm_compute; reflexivity).
  assert (Hne : lit "hf_token" <> []) by discriminate.
  split; [exact H | split; [exact Hne |]].
  exact (notebook_with_token no_dotenv false [] sample_turns
           (lit " Hello there. Anyone?") [seg_hello; seg_late] [] [] []
           kernel_with_token (lit "hf_token") H Hne).
Defined.

Lemma assigned_turn_nearly_longest_witness :
  current_speaker
    (find_speaker [turn_first; turn_second] seg_rounding fresh_kernel)
  = Some (lit "SPEAKER_00")
  /\ exists t, t ∈ [turn_first; turn_second]
       /\ speaker t = lit "SPEAKER_00"
       /\ 0 < exact_overlap (seg_start seg_rounding) (seg_end seg_rounding) t
       /\ Forall
            (fun t' =>
               (exact_overlap (seg_start seg_rounding) (seg_end seg_rounding) t'
                - exact_overlap (seg_start seg_rounding) (seg_end seg_rounding) t)
               * inject_Z (2 ^ 53)
               <= exact_overlap (seg_start seg_rounding) (seg_end seg_rounding) t
                  + exact_overlap (seg_start seg_rounding) (seg_end seg_rounding)
                      t')
            [turn_first; turn_second].
Proof.
  assert (H : current_speaker
                (find_speaker [turn_first; turn_second] seg_rounding fresh_kernel)
              = Some (lit "SPEAKER_00")) by (vm_compute; reflexivity).
  split; [exact H |].
  exact (assigned_turn_nearly_longest [turn_first; turn_second] seg_rounding
           fresh_kernel (lit "SPEAKER_00") H).
Defined.
